(** * G10 rates dashboard: the analytics core, embedded and verified

    A shallow embedding of the numerical core of the dashboard
    ([modules/calculations.py], [modules/hedging.py], [modules/analytics.py],
    [modules/swap_loader.py])
    together with the properties stated about it.

    Number model.
    - Curve data (years, rates, discount factors) are Python floats in the
      source.  The curve algorithms are modelled over exact rationals [Q]:
      every comparison, clamp and recursion of the source is kept, rounding
      error and the non-finite values (inf, nan) are not.  Logarithms and
      real powers ([math.log], [**] with a float exponent) are the real
      functions [ln] and [Rpower] applied to the embedded rational.
    - The hedge engine is straight-line float code whose displayed values
      depend on binary64 rounding; it is modelled over the kernel's binary64
      floats ([PrimFloat]), which have Python's float semantics.
    - A pandas DataFrame is the list of its rows in index order; a missing
      value (NaN/None) in a column is [None].
    - Exceptions are values: every function that can raise returns
      [result]. *)

From Stdlib Require Import QArith Qround Qabs Qpower Qreals Reals Psatz Floats ZArith Lia.
From Stdlib Require Import List String Ascii Sorted Permutation.
From stdpp Require Import gmap strings.
Import ListNotations.

Set Warnings "-inexact-float".

(** ** Exceptions *)

Inductive exn : Type :=
| ZeroDivisionError
| KeyError
| ValueError
| IndexError
| OverflowError
| MergeError.

Inductive result (A : Type) : Type :=
| Ok (a : A)
| Raise (e : exn).
Arguments Ok {A} a.
Arguments Raise {A} e.

Global Instance result_ret : MRet result := fun A a => Ok a.
Global Instance result_bind : MBind result := fun A B f r =>
  match r with
  | Ok a => f a
  | Raise e => Raise e
  end.

Definition is_Ok {A} (r : result A) : Prop := exists a, r = Ok a.

(** ** Exact numerics: Python's [min], [max], [round] and [/] on rationals *)

Module Num.
Local Open Scope Q_scope.

(** The float literals [1e-12] and [1e-9]. *)
Abbreviation q1e_12 := (1 # 1000000000000)%Q.
Abbreviation q1e_9 := (1 # 1000000000)%Q.

(** [min(a, b)] returns [a] unless [b < a]; [max(a, b)] returns [a] unless
    [b > a] (the first argument wins ties). *)
Definition py_min (a b : Q) : Q := if Qlt_le_dec b a then b else a.
Definition py_max (a b : Q) : Q := if Qlt_le_dec a b then b else a.

(** Float division raises on a zero divisor. *)
Definition py_div (a b : Q) : result Q :=
  if Qeq_bool b 0 then Raise ZeroDivisionError else Ok (a / b).

(** [round] to the nearest integer, ties to the even one (numpy's
    [Series.round] and Python's [round] agree on this). *)
Definition round_half_even (x : Q) : Z :=
  let f := Qfloor x in
  match Qcompare (x - inject_Z f) (1 # 2) with
  | Lt => f
  | Gt => (f + 1)%Z
  | Eq => if Z.even f then f else (f + 1)%Z
  end.

(** [Series.round(6)]: the nearest multiple of 1e-6. *)
Definition round6 (x : Q) : Q :=
  inject_Z (round_half_even (x * 1000000)) / 1000000.

(** [range(a, b)] *)
Definition range (a b : Z) : list Z :=
  List.map (fun i => (a + Z.of_nat i)%Z) (seq 0 (Z.to_nat (b - a))).

(** Stable sort on a rational key ([DataFrame.sort_values] on one column;
    rows with equal keys keep their relative order). *)
Section Sort.
Context {A : Type} (key : A -> Q).

Fixpoint insert_by (x : A) (l : list A) : list A :=
  match l with
  | [] => [x]
  | y :: l' =>
      if Qle_bool (key x) (key y) then x :: y :: l'
      else y :: insert_by x l'
  end.

Definition sort_by (l : list A) : list A := fold_right insert_by [] l.

(** Ascending order on the key. *)
Definition key_le (a b : A) : Prop := key a <= key b.
End Sort.

End Num.
Export Num.

(** ** Curve tables *)

(** One row of a quoted curve: the [tenor], [years] and rate columns (the
    rate column is [yield] for government curves and [rate] for swaps). *)
Record quote : Type := mkQuote {
  tenor : option string;
  years : option Q;
  rate : option Q
}.

(** [dropna(subset=["years", <rate column>])] keeping the two columns the
    algorithms read. *)
Definition dropna (d : list quote) : list (Q * Q) :=
  omap (fun r =>
          match years r, rate r with
          | Some t, Some y => Some (t, y)
          | _, _ => None
          end) d.

(** A row with a [years] and a rate value and no tenor label. *)
Definition quoted (t y : Q) : quote := mkQuote None (Some t) (Some y).

(** ** Zero-curve bootstrapper *)

Module Bootstrap.
Local Open Scope Q_scope.

(** One emitted row: [{"years": t, "zero_yield": zero * 100}] *)
Record zero_row : Type := mkZero {
  zr_years : Q;
  zr_zero_yield : R
}.

(** [d["N"] = (d["years"] * freq).round().astype(int)] *)
Definition period (freq : Z) (t : Q) : Z := round_half_even (t * inject_Z freq).

(** [drop_duplicates(subset=["N"])]: the first row of each [N] is kept. *)
Fixpoint drop_duplicates (l : list (Z * Q)) : list (Z * Q) :=
  match l with
  | [] => []
  | p :: l' =>
      p :: List.filter (fun q => negb (fst q =? fst p)%Z) (drop_duplicates l')
  end.

(** The frame the loop iterates over: valid rows, ascending [years], period
    index attached, [N > 0], one row per [N].  Each element is [(N, rate)]. *)
Definition points (freq : Z) (d : list quote) : list (Z * Q) :=
  let sorted := sort_by fst (dropna d) in
  let withN := List.map (fun r => (period freq (fst r), snd r)) sorted in
  drop_duplicates (List.filter (fun p => (0 <? fst p)%Z) withN).

(** [math.log] and float [**] on a rational argument. *)
Definition math_log (x : Q) : result R :=
  if Qle_bool x 0 then Raise ValueError else Ok (ln (Q2R x)).

(** A zero base with a negative exponent raises; a negative base with a
    fractional exponent gives a complex number in Python, which this number
    model does not have (the clamp keeps the base positive). *)
Definition float_pow (x e : Q) : result R :=
  if Qeq_bool x 0 then Raise ZeroDivisionError
  else if Qle_bool x 0 then Raise ValueError
  else Ok (Rpower (Q2R x) (Q2R e)).

(** The conversion of [DF_N] at time [t] to a zero yield in percent. *)
Definition zero_yield (comp : string) (DF_N t : Q) : result R :=
  if String.eqb comp "cont" then
    l ← math_log DF_N;
    Ok ((- l / Q2R (py_max t q1e_12)) * 100)%R
  else
    p ← float_pow DF_N (-1 / py_max t q1e_12);
    Ok ((p - 1) * 100)%R.

(** [max(min(DF_N, 1.0), 1e-12)] *)
Definition clamp (x : Q) : Q := py_max (py_min x 1) q1e_12.

(** The running sum [Σ w·DF[k]] over [k in range(1, N)] with [k in DF]. *)
Definition weighted_sum (w : Q) (DF : gmap Z Q) (N : Z) : Q :=
  fold_left (fun acc k =>
               match DF !! k with
               | Some v => acc + w * v
               | None => acc
               end) (range 1 N) 0.

(** Bond form: the discount factor stored for a point with periodic coupon
    [c], given the table built so far. *)
Definition bond_DF (c : Q) (DF : gmap Z Q) (N : Z) : result Q :=
  let coupon_sum := weighted_sum c DF N in
  let denom := 100 + c in
  let numer := 100 - coupon_sum in
  DF_N ← (if Qle_bool numer q1e_9 then Ok q1e_12 else py_div numer denom);
  Ok (clamp DF_N).

(** Periodic coupon: [y = yield / 100; c = (y / freq) * 100]. *)
Definition coupon (freq : Z) (yld : Q) : result Q :=
  let y := yld / 100 in
  q ← py_div y (inject_Z freq);
  Ok (q * 100).

(** One iteration of the loop of [bootstrap_zero_from_par]. *)
Definition bond_step (freq : Z) (comp : string)
    (st : gmap Z Q * list zero_row) (p : Z * Q)
    : result (gmap Z Q * list zero_row) :=
  let '(DF, rows) := st in
  let '(N, yld) := p in
  c ← coupon freq yld;
  DF_N ← bond_DF c DF N;
  t ← py_div (inject_Z N) (inject_Z freq);
  zero ← zero_yield comp DF_N t;
  Ok (<[N := DF_N]> DF, rows ++ [mkZero t zero]).

(** The loop: a left fold that stops at the first exception. *)
Fixpoint run {S X : Type} (step : S -> X -> result S) (l : list X) (st : S)
    : result S :=
  match l with
  | [] => Ok st
  | x :: l' => st' ← step st x; run step l' st'
  end.

(** [pd.DataFrame(rows).sort_values("years")]: a frame built from an empty
    list has no column, and sorting it on ["years"] raises [KeyError]. *)
Definition emit (rows : list zero_row) : result (list zero_row) :=
  match rows with
  | [] => Raise KeyError
  | _ => Ok (sort_by zr_years rows)
  end.

Definition bond_loop (freq : Z) (comp : string) (pts : list (Z * Q))
    : result (gmap Z Q * list zero_row) :=
  run (bond_step freq comp) pts (∅, []).

Definition bootstrap_zero_from_par (d : list quote) (freq : Z) (comp : string)
    : result (list zero_row) :=
  st ← bond_loop freq comp (points freq d);
  emit (snd st).

(** Swap form. *)
Definition swap_DF (S alpha : Q) (DF : gmap Z Q) (N : Z) : result Q :=
  let annuity := weighted_sum alpha DF N in
  DF_N ← py_div (1 - S * annuity) (1 + S * alpha);
  Ok (clamp DF_N).

Definition swap_step (freq : Z) (comp : string) (alpha : Q)
    (st : gmap Z Q * list zero_row) (p : Z * Q)
    : result (gmap Z Q * list zero_row) :=
  let '(DF, rows) := st in
  let '(N, r) := p in
  let S := r / 100 in
  DF_N ← swap_DF S alpha DF N;
  t ← py_div (inject_Z N) (inject_Z freq);
  z ← zero_yield comp DF_N t;
  Ok (<[N := DF_N]> DF, rows ++ [mkZero t z]).

Definition swap_loop (freq : Z) (comp : string) (pts : list (Z * Q))
    : result (gmap Z Q * list zero_row) :=
  alpha ← py_div 1 (inject_Z freq);
  run (swap_step freq comp alpha) pts (∅, []).

Definition bootstrap_zero_from_par_swaps (d : list quote) (freq : Z)
    (comp : string) : result (list zero_row) :=
  match d with
  | [] => Ok []
  | _ =>
      st ← swap_loop freq comp (points freq d);
      emit (snd st)
  end.

(** *** Specification vocabulary *)

(** The value each variant stores for a point, as a function of the table. *)
Definition bond_solve (freq : Z) (DF : gmap Z Q) (p : Z * Q) : result Q :=
  c ← coupon freq (snd p); bond_DF c DF (fst p).

Definition swap_solve (alpha : Q) (DF : gmap Z Q) (p : Z * Q) : result Q :=
  swap_DF (snd p / 100) alpha DF (fst p).

(** [emitted solve freq comp DF p r]: the table [DF] holds at the index of
    point [p] the value the rule [solve] gives on [DF] itself, and [r] is
    the row for that value at [t = N / freq]. *)
Definition emitted (solve : gmap Z Q -> Z * Q -> result Q) (freq : Z)
    (comp : string) (DF : gmap Z Q) (p : Z * Q) (r : zero_row) : Prop :=
  exists v t z,
    solve DF p = Ok v /\
    DF !! fst p = Some v /\
    py_div (inject_Z (fst p)) (inject_Z freq) = Ok t /\
    zero_yield comp v t = Ok z /\
    r = mkZero t z.

(** The sum of the factors present at the indices [1 .. N-1]. *)
Definition table_sum (DF : gmap Z Q) (N : Z) : Q :=
  fold_left (fun acc k => acc + default 0 (DF !! k)) (range 1 N) 0.


(** Values a discount-factor table may hold. *)
Definition in_range (v : Q) : Prop := q1e_12 <= v /\ v <= 1.

End Bootstrap.

(** ** Curve cleaning, alignment and spreads *)

Module Spread.
Local Open Scope Q_scope.

(** A row of a cleaned curve. *)
Record crow : Type := mkRow {
  c_tenor : option string;
  c_years : Q;
  c_rate : Q
}.

(** Rows with both a [years] and a rate value
    ([dropna(subset=["years", rate_col])]). *)
Definition valid_rows (d : list quote) : list crow :=
  omap (fun r =>
          match years r, rate r with
          | Some t, Some y => Some (mkRow (tenor r) t y)
          | _, _ => None
          end) d.

(** [groupby("years")] on a frame sorted by [years]: the groups are the runs
    of equal [years]; a group is its first row and the rows after it. *)
Fixpoint groupby_years (l : list crow) : list (crow * list crow) :=
  match l with
  | [] => []
  | r :: l' =>
      match groupby_years l' with
      | (h, g) :: gs =>
          if Qeq_bool (c_years r) (c_years h) then (r, h :: g) :: gs
          else (r, []) :: (h, g) :: gs
      | [] => [(r, [])]
      end
  end.

Definition mean (l : list Q) : Q :=
  fold_left Qplus l 0 / inject_Z (Z.of_nat (length l)).

(** The ["first"] aggregate skips missing values. *)
Fixpoint first_valid {A} (l : list (option A)) : option A :=
  match l with
  | [] => None
  | Some a :: _ => Some a
  | None :: l' => first_valid l'
  end.

(** [agg({"years": "first", rate_col: "mean", "tenor": "first"})] *)
Definition agg (g : crow * list crow) : crow :=
  let rows := fst g :: snd g in
  mkRow (first_valid (List.map c_tenor rows))
        (c_years (fst g))
        (mean (List.map c_rate rows)).

(** [_clean_curve] and [_clean_par_curve] (they differ only in how a missing
    [years] column is derived from [tenor]). *)
Definition clean_curve (d : list quote) : list crow :=
  sort_by c_years
    (List.map agg (groupby_years (sort_by c_years (valid_rows d)))).

(** Strictly ascending maturities. *)
Definition years_lt (a b : crow) : Prop := c_years a < c_years b.

(** A cleaned curve handed on as an input frame. *)
Definition to_quotes (l : list crow) : list quote :=
  List.map (fun r => mkQuote (c_tenor r) (Some (c_years r)) (Some (c_rate r))) l.

(** Two rows with the same label and maturity and equal rates. *)
Definition same_row (r c : crow) : Prop :=
  c_tenor c = c_tenor r /\ c_years c = c_years r /\ c_rate c == c_rate r.

(** A row of a joined frame: the target row with the reference rate. *)
Record joined : Type := mkJoined {
  j_tenor : option string;
  j_years : Q;
  j_rate : Q;
  j_ref : Q
}.

Definition join_row (ra : crow) (ref : Q) : joined :=
  mkJoined (c_tenor ra) (c_years ra) (c_rate ra) ref.

(** [a.merge(b[["years","ref"]], on="years", how="inner")]: the rows of [a],
    in order, each paired with the rows of [b] that have the same [years]. *)
Definition merge_inner (a b : list crow) : list joined :=
  flat_map (fun ra =>
              List.map (fun rb => join_row ra (c_rate rb))
                (List.filter (fun rb => Qeq_bool (c_years ra) (c_years rb)) b))
           a.

(** [pd.merge_asof(..., direction="nearest", tolerance=tol)] on frames sorted
    by the key.  The backward candidate is the last reference row at or
    before [x], the forward candidate the first one at or after [x]; a
    candidate farther than [tol] is no candidate; of two candidates the
    nearer wins and the backward one wins a tie. *)
Definition asof_backward (b : list crow) (x tol : Q) : option crow :=
  r ← last (List.filter (fun rb => Qle_bool (c_years rb) x) b);
  if Qle_bool (x - c_years r) tol then Some r else None.

Definition asof_forward (b : list crow) (x tol : Q) : option crow :=
  r ← head (List.filter (fun rb => Qle_bool x (c_years rb)) b);
  if Qle_bool (c_years r - x) tol then Some r else None.

Definition asof_nearest (b : list crow) (x tol : Q) : option crow :=
  match asof_backward b x tol, asof_forward b x tol with
  | Some rb, Some rf =>
      if Qle_bool (x - c_years rb) (c_years rf - x) then Some rb else Some rf
  | Some rb, None => Some rb
  | None, o => o
  end.

(** A negative tolerance is rejected ("tolerance must be positive"). *)
Definition merge_asof_nearest (a b : list crow) (tol : Q)
    : result (list (crow * option Q)) :=
  if Qle_bool 0 tol then
    Ok (List.map (fun ra => (ra, c_rate <$> asof_nearest b (c_years ra) tol)) a)
  else Raise MergeError.

(** [m.dropna(subset=["ref"])] *)
Definition dropna_ref (m : list (crow * option Q)) : list joined :=
  omap (fun p => join_row (fst p) <$> snd p) m.

(** [m.empty or len(m) < max(2, int(0.3 * min(len(a), len(b))))] *)
Definition needs_fallback (la lb lm : nat) : bool :=
  (lm =? 0)%nat || (Z.of_nat lm <? Z.max 2 (3 * Z.of_nat (Nat.min la lb) / 10))%Z.

Definition nearest_join (a b : list crow) (tol : Q) : result (list joined) :=
  m ← merge_asof_nearest (sort_by c_years a) (sort_by c_years b) tol;
  Ok (dropna_ref m).

(** The two-tier alignment of [add_spread_vs_ref_par] and
    [swap_spread_vs_ref]. *)
Definition align (a b : list crow) (tol : Q) : result (list joined) :=
  let m := merge_inner a b in
  if needs_fallback (length a) (length b) (length m) then nearest_join a b tol
  else Ok m.

(** One output row: [tenor], [years], [spread_bp], [country]. *)
Record spread_row : Type := mkSpread {
  sp_tenor : option string;
  sp_years : Q;
  sp_spread_bp : Q;
  sp_country : string
}.

Definition spread_of (country : string) (j : joined) : spread_row :=
  mkSpread (j_tenor j) (j_years j) ((j_rate j - j_ref j) * 100) country.

(** [country] is the label the source attaches to every row. *)
Definition add_spread_vs_ref_par (df_target df_ref : list quote)
    (country : string) (nearest_tol_years : Q) : result (list spread_row) :=
  let a := clean_curve df_target in
  let b := clean_curve df_ref in
  match a, b with
  | [], _ | _, [] => Ok []
  | _, _ =>
      m ← align a b nearest_tol_years;
      Ok (sort_by sp_years (List.map (spread_of country) m))
  end.

(** [swap_spread_vs_ref]: both curves are cleaned on their [rate] column and
    aligned as above; the label is the argument. *)
Definition swap_spread_vs_ref (df_target_swaps df_ref_swaps : list quote)
    (country_label : string) (tol_years : Q) : result (list spread_row) :=
  let a := clean_curve df_target_swaps in
  let b := clean_curve df_ref_swaps in
  if (length a =? 0)%nat || (length b =? 0)%nat then Ok []
  else
    let m := merge_inner a b in
    m ← (if (length m =? 0)%nat
            || (Z.of_nat (length m)
                <? Z.max 2 (3 * Z.of_nat (Nat.min (length a) (length b)) / 10))%Z
         then
           m' ← merge_asof_nearest (sort_by c_years a) (sort_by c_years b)
                  tol_years;
           Ok (dropna_ref m')
         else Ok m);
    if (length m =? 0)%nat then Ok []
    else Ok (sort_by sp_years (List.map (spread_of country_label) m)).

(** [np.interp(x, xp, fp, left=fp[0], right=fp[-1])] on the points
    [(xp[i], fp[i])], [xp] increasing.  [interp_from] scans for the interval
    [xp[j] <= x < xp[j+1]]; on the last point and on a knot the value is the
    tabulated one. *)
Fixpoint interp_from (x : Q) (p : Q * Q) (l : list (Q * Q)) : Q :=
  match l with
  | [] => snd p
  | p1 :: l' =>
      if Qle_bool (fst p1) x then interp_from x p1 l'
      else if Qeq_bool (fst p) x then snd p
      else
        let slope := (snd p1 - snd p) / (fst p1 - fst p) in
        slope * (x - fst p) + snd p
  end.

Definition np_interp (x : Q) (pts : list (Q * Q)) (left right : Q) : Q :=
  match pts with
  | [] => left
  | p :: l =>
      if negb (Qle_bool (fst p) x) then left
      else if negb (Qle_bool x (fst (List.last l p))) then right
      else interp_from x p l
  end.

(** [asw_spread]: the swap curve interpolated on the bond maturities. *)
Definition swap_interp (b : list crow) (x : Q) : Q :=
  let pts := List.map (fun r => (c_years r, c_rate r)) b in
  np_interp x pts (snd (hd (0, 0) pts)) (snd (List.last pts (0, 0))).

Definition asw_spread (df_bonds df_swaps_same_ccy : list quote)
    (country_label : string) : list spread_row :=
  let a := clean_curve df_bonds in
  let b := clean_curve df_swaps_same_ccy in
  if (length a =? 0)%nat || (length b <? 2)%nat then []
  else
    sort_by sp_years
      (List.map (fun ra =>
                   mkSpread (c_tenor ra) (c_years ra)
                     ((c_rate ra - swap_interp b (c_years ra)) * 100)
                     country_label) a).

End Spread.

(** ** Tenor parsing *)

Module Tenor.
Local Open Scope Q_scope.

(** A Python float as far as parsing can produce one: a finite value, an
    infinity or nan. *)
Inductive fval : Type :=
| Fin (q : Q)
| Inf (neg : bool)
| NaN.

(** The values a tenor cell can hold. *)
Inductive pyval : Type :=
| PyNone
| PyNum (v : fval)
| PyStr (s : string).

Definition code (c : ascii) : Z := Z.of_N (N_of_ascii c).

(** ASCII part of [str.isspace], [str.upper] and of the decimal digits. *)
Definition is_space (c : ascii) : bool :=
  let n := code c in
  ((9 <=? n) && (n <=? 13) || (28 <=? n) && (n <=? 32))%Z.

Definition upper_char (c : ascii) : ascii :=
  let n := code c in
  if ((97 <=? n) && (n <=? 122))%Z then ascii_of_N (Z.to_N (n - 32)) else c.

Definition digit_of (c : ascii) : option Z :=
  let n := code c in
  if ((48 <=? n) && (n <=? 57))%Z then Some (n - 48)%Z else None.

Fixpoint lstrip (s : list ascii) : list ascii :=
  match s with
  | c :: s' => if is_space c then lstrip s' else s
  | [] => []
  end.

Definition strip (s : list ascii) : list ascii := rev (lstrip (rev (lstrip s))).

Definition upper (s : list ascii) : list ascii := List.map upper_char s.

(** [s.endswith(c)] for a one-character suffix, and [s[:-1]]. *)
Definition endswith (s : list ascii) (c : ascii) : bool :=
  match rev s with
  | c' :: _ => Ascii.eqb c' c
  | [] => false
  end.

Definition drop_last (s : list ascii) : list ascii := removelast s.

(** A digit part of a float literal: digits, single underscores between
    them.  Returns the value, the number of digits and the rest. *)
Fixpoint digits_more (acc : Z) (cnt : nat) (s : list ascii) {struct s}
    : Z * nat * list ascii :=
  match s with
  | c :: s' =>
      match digit_of c with
      | Some d => digits_more (10 * acc + d)%Z (S cnt) s'
      | None =>
          if Ascii.eqb c "_" then
            match s' with
            | c2 :: s'' =>
                match digit_of c2 with
                | Some d => digits_more (10 * acc + d)%Z (S cnt) s''
                | None => (acc, cnt, s)
                end
            | [] => (acc, cnt, s)
            end
          else (acc, cnt, s)
      end
  | [] => (acc, cnt, s)
  end.

Definition digitpart (s : list ascii) : option (Z * nat * list ascii) :=
  match s with
  | c :: s' =>
      match digit_of c with
      | Some d => Some (digits_more d 1 s')
      | None => None
      end
  | [] => None
  end.

Definition sign_of (s : list ascii) : bool * list ascii :=
  match s with
  | c :: s' =>
      if Ascii.eqb c "-" then (true, s')
      else if Ascii.eqb c "+" then (false, s')
      else (false, s)
  | [] => (false, s)
  end.

(** The exponent part, which must end the literal. *)
Definition exponent (s : list ascii) : option Z :=
  match s with
  | [] => Some 0%Z
  | c :: s' =>
      if Ascii.eqb (upper_char c) "E" then
        let '(neg, r) := sign_of s' in
        match digitpart r with
        | Some (e, _, []) => Some (if neg then (- e)%Z else e)
        | _ => None
        end
      else None
  end.

Definition scale (q : Q) (e : Z) : Q := q * (10 # 1) ^ e.

(** An unsigned decimal literal: [digits [. [digits]] [exponent]] or
    [. digits [exponent]]. *)
Definition number (s : list ascii) : option Q :=
  match digitpart s with
  | Some (ip, _, r) =>
      match r with
      | c :: r' =>
          if Ascii.eqb c "." then
            match digitpart r' with
            | Some (fp, cnt, r'') =>
                e ← exponent r'';
                Some (scale (inject_Z (ip * 10 ^ Z.of_nat cnt + fp))
                            (e - Z.of_nat cnt))
            | None => e ← exponent r'; Some (scale (inject_Z ip) e)
            end
          else e ← exponent r; Some (scale (inject_Z ip) e)
      | [] => Some (inject_Z ip)
      end
  | None =>
      match s with
      | c :: r' =>
          if Ascii.eqb c "." then
            match digitpart r' with
            | Some (fp, cnt, r'') =>
                e ← exponent r'';
                Some (scale (inject_Z fp) (e - Z.of_nat cnt))
            | None => None
            end
          else None
      | [] => None
      end
  end.

Definition text (s : string) : list ascii := list_ascii_of_string s.

(** The decimal numeral with the given digits and its value; used to state
    what the parser does on ["<n>Y"]. *)
Definition digit_char (d : nat) : ascii := ascii_of_nat (48 + d).

(** [float(s)] on a string: surrounding whitespace is ignored, case is
    ignored, anything that is not a float literal raises [ValueError]. *)
Definition py_float (s : list ascii) : result fval :=
  let '(neg, r) := sign_of (upper (strip s)) in
  if decide (r = text "INF") then Ok (Inf neg)
  else if decide (r = text "INFINITY") then Ok (Inf neg)
  else if decide (r = text "NAN") then Ok NaN
  else
    match number r with
    | Some q => Ok (Fin (if neg then - q else q))
    | None => Raise ValueError
    end.

(** Division of a parsed float by a non-zero constant. *)
Definition fdiv (v : fval) (d : Q) : fval :=
  match v with
  | Fin q => Fin (q / d)
  | Inf neg => Inf neg
  | NaN => NaN
  end.

(** [calculations._tenor_to_years] *)
Definition _tenor_to_years (tenor : pyval) : result (option fval) :=
  match tenor with
  | PyNone => Ok None
  | PyNum v => Ok (Some v)
  | PyStr t =>
      let s := upper (strip (text t)) in
      if endswith s "Y" then v ← py_float (drop_last s); Ok (Some v)
      else if endswith s "M" then
        v ← py_float (drop_last s); Ok (Some (fdiv v 12))
      else Ok None
  end.

(** [analytics.tenor_to_years] *)
Definition tenor_to_years (tenor : pyval) : result (option fval) :=
  match tenor with
  | PyStr t =>
      let s := upper (strip (text t)) in
      if endswith s "Y" then v ← py_float (drop_last s); Ok (Some v)
      else if endswith s "M" then
        v ← py_float (drop_last s); Ok (Some (fdiv v 12))
      else Ok None
  | _ => Ok None
  end.

End Tenor.

(** ** DV01 and hedge sizing (binary64) *)

Module Hedging.
Local Open Scope float_scope.

(** *** Python float operations that are not binary64 primitives *)

(** The float nearest to [num / den] (ties to even): the quotient is cut
    with at least two bits more than the significand holds and a sticky bit,
    and rounded once. *)
Definition nearest_float (num : Z) (den : positive) : float :=
  if (num =? 0)%Z then PrimFloat.zero
  else
    let n := Z.abs num in
    let k := Z.max 0 (56 + Z.log2 (Zpos den) - Z.log2 n) in
    let q := (n * 2 ^ k / Zpos den)%Z in
    let r := (n * 2 ^ k mod Zpos den)%Z in
    let m := (2 * q + (if (r =? 0)%Z then 0 else 1))%Z in
    SF2Prim (binary_normalize prec emax
               (if (num <? 0)%Z then (- m)%Z else m) (- k - 1) false).

(** Conversion of an [int] operand. *)
Definition float_of_Z (z : Z) : float := nearest_float z 1.

(** The exact value of a finite float. *)
Definition exact (x : float) : Q :=
  match Prim2SF x with
  | S754_finite s m e =>
      (inject_Z (if s then Zneg m else Zpos m) * (2 # 1) ^ e)%Q
  | _ => 0%Q
  end.

(** [round(x)]: the nearest integer, ties to even. *)
Definition py_round_int (x : float) : result Z :=
  if is_nan x then Raise ValueError
  else if is_infinity x then Raise OverflowError
  else Ok (round_half_even (exact x)).

(** [round(x, ndigits)] for [ndigits >= 0]: the exact value is rounded to
    [ndigits] decimals, ties to even, and the decimal is converted back. *)
Definition py_round (x : float) (ndigits : nat) : float :=
  if is_nan x || is_infinity x || is_zero x then x
  else
    let p := (10 ^ Z.of_nat ndigits)%Z in
    let m := round_half_even (exact x * inject_Z p)%Q in
    if (m =? 0)%Z then (if x <? 0 then PrimFloat.neg_zero else PrimFloat.zero)
    else nearest_float m (Z.to_pos p).

(** Float division raises on a zero divisor. *)
Definition float_div (a b : float) : result float :=
  if b =? 0 then Raise ZeroDivisionError else Ok (a / b).

(** [x ** k] for a float [x] and an integer [k >= 0], taken as correctly
    rounded; an overflowing result raises. *)
Definition float_pow (x : float) (k : Z) : result float :=
  match Prim2SF x with
  | S754_nan => Ok (if (k =? 0)%Z then 1 else PrimFloat.nan)
  | S754_infinity s =>
      Ok (if (k =? 0)%Z then 1
          else if s && Z.odd k then PrimFloat.neg_infinity else PrimFloat.infinity)
  | S754_zero s =>
      Ok (if (k =? 0)%Z then 1
          else if s && Z.odd k then PrimFloat.neg_zero else PrimFloat.zero)
  | S754_finite s m e =>
      let r := SF2Prim (binary_normalize prec emax
                          ((if s then Zneg m else Zpos m) ^ k) (e * k) false) in
      if is_infinity r then Raise OverflowError else Ok r
  end.

(** [min], [max] on floats: the first argument is kept unless the second
    compares strictly smaller (larger). *)
Definition fmin (a b : float) : float := if b <? a then b else a.
Definition fmax (a b : float) : float := if a <? b then b else a.

(** *** Bond price and DV01 *)

Definition _y_to_per_period (y_pct : float) (freq : Z) : result float :=
  float_div (y_pct / 100) (float_of_Z freq).

(** [sum(c / ((1+y)**k) for k in range(1, n+1))], added left to right. *)
Fixpoint coupons_pv (c y : float) (ks : list Z) (acc : float) : result float :=
  match ks with
  | [] => Ok acc
  | k :: ks' =>
      p ← float_pow (1 + y) k;
      t ← float_div c p;
      coupons_pv c y ks' (acc + t)
  end.

Definition bond_price_clean (face coupon_pct ytm_pct T_years : float)
    (freq : Z) : result float :=
  c ← float_div (coupon_pct / 100 * face) (float_of_Z freq);
  y ← _y_to_per_period ytm_pct freq;
  n ← py_round_int (T_years * float_of_Z freq);
  if (n <=? 0)%Z then Ok face
  else
    s ← coupons_pv c y (range 1 (n + 1)) 0;
    p ← float_pow (1 + y) n;
    r ← float_div face p;
    Ok (s + r).

Definition bond_dv01 (face coupon_pct ytm_pct T_years : float) (freq : Z)
    (bump_bp : float) : result float :=
  p0 ← bond_price_clean face coupon_pct ytm_pct T_years freq;
  p_up ← bond_price_clean face coupon_pct (ytm_pct + bump_bp / 100) T_years freq;
  dv01 ← float_div (p_up - p0) (bump_bp / 10000);
  Ok (abs dv01).

(** *** Swap curve lookups *)

Record swap_quote : Type := mkSwap {
  sw_years : float;
  sw_rate : float
}.

(** Rows carry their index label; a frame given as a list has the labels
    [0, 1, 2, ...]. *)
Definition labelled (df : list swap_quote) : list (nat * swap_quote) :=
  combine (seq 0 (length df)) df.

Fixpoint finsert (x : nat * swap_quote) (l : list (nat * swap_quote))
    : list (nat * swap_quote) :=
  match l with
  | [] => [x]
  | y :: l' =>
      if sw_years (snd x) <=? sw_years (snd y) then x :: y :: l'
      else y :: finsert x l'
  end.

(** [sort_values("years")] on rows without missing years. *)
Definition sort_years (l : list (nat * swap_quote)) : list (nat * swap_quote) :=
  fold_right finsert [] l.

(** [idxmin]: the label of the first smallest value, missing values skipped;
    nothing to choose from is an error. *)
Definition idxmin (l : list (nat * float)) : result nat :=
  match List.filter (fun p => negb (is_nan (snd p))) l with
  | [] => Raise ValueError
  | p :: l' =>
      Ok (fst (fold_left (fun best q => if snd q <? snd best then q else best)
                 l' p))
  end.

Definition distances (l : list (nat * swap_quote)) (T : float)
    : list (nat * float) :=
  List.map (fun p => (fst p, abs (sw_years (snd p) - T))) l.

(** [pick_nearest_swap_tenor]: the label returned by [idxmin] is used as a
    position ([iloc]) in the sorted series. *)
Definition pick_nearest_swap_tenor (df_swaps : list swap_quote)
    (T_years : float) : result float :=
  match df_swaps with
  | [] => Ok PrimFloat.nan
  | _ =>
      let y := sort_years
                 (List.filter (fun p => negb (is_nan (sw_years (snd p))))
                    (labelled df_swaps)) in
      i ← idxmin (distances y T_years);
      match nth_error y i with
      | Some p => Ok (sw_years (snd p))
      | None => Raise IndexError
      end
  end.

Definition swap_dv01_from_par_curve (df_swaps : list swap_quote)
    (tenor_years : float) (freq : Z) : result float :=
  match df_swaps with
  | [] => Ok PrimFloat.nan
  | _ =>
      let df := sort_years
                  (List.filter
                     (fun p => negb (is_nan (sw_years (snd p)))
                               && negb (is_nan (sw_rate (snd p))))
                     (labelled df_swaps)) in
      idx ← idxmin (distances df tenor_years);
      alpha ← float_div 1 (float_of_Z freq);
      let annuity_guess := tenor_years * alpha * 100 in
      Ok annuity_guess
  end.

(** *** Futures table and liquidity score *)

Definition upper_string (s : string) : string :=
  string_of_list_ascii (Tenor.upper (list_ascii_of_string s)).

Definition table : gmap string float :=
  list_to_map
    [("FGBL"%string, 85.0); ("ZN"%string, 80.0); ("ZB"%string, 120.0);
     ("FGBM"%string, 55.0); ("FGBS"%string, 30.0)].

Definition futures_dv01_lookup (symbol : string) : float :=
  default PrimFloat.nan (table !! upper_string symbol).

Definition liquidity_score (is_on_the_run : bool)
    (bid_ask_bp est_daily_volume_mm : option float) : float :=
  let s := 0.0 in
  let s := if is_on_the_run then s + 0.4 else s in
  let s :=
    match bid_ask_bp with
    | Some b => s + fmax 0.0 (fmin 0.3 (0.3 * (2.0 / fmax 0.5 b)))
    | None => s
    end in
  let s :=
    match est_daily_volume_mm with
    | Some v => s + fmax 0.0 (fmin 0.3 (0.3 * (v / 200.0)))
    | None => s
    end in
  fmin 1.0 s.

(** *** The proposal *)

Inductive futures_leg : Type :=
| FuturesSized (symbol : string) (dv01_per_contract contracts : float)
| FuturesNote (symbol : string) (note : string).

Inductive irs_leg : Type :=
| IrsSized (tenor_years dv01_per_100 receiver_fix_notional : float)
| IrsNote (note : string).

(** The returned dictionary; the ["futures"] key is absent when no symbol
    is given. *)
Record proposal : Type := mkProposal {
  dv01_bond : float;
  futures : option futures_leg;
  irs : irs_leg;
  liquidity : float
}.

(** The test both legs apply to a DV01: [not math.isnan(d) and d > 0]. *)
Definition usable (d : float) : bool := negb (is_nan d) && (0 <? d).

(** The futures block of [hedge_proposal]. *)
Definition futures_block (dv01_bond : float) (futures_symbol : option string)
    : option futures_leg :=
  match futures_symbol with
  | None => None
  | Some sym =>
      if String.eqb sym "" then None
      else
        let dv01_fut := futures_dv01_lookup sym in
        if usable dv01_fut then
          let n_fut := dv01_bond / dv01_fut in
          Some (FuturesSized sym dv01_fut (py_round n_fut 2))
        else Some (FuturesNote sym "DV01 inconnu")
  end.

(** The swap block of [hedge_proposal]. *)
Definition irs_block (dv01_bond T_years : float) (df_swaps_ccy : list swap_quote)
    (swap_freq_by_ccy : Z) : result irs_leg :=
  tenor_swap ← pick_nearest_swap_tenor df_swaps_ccy T_years;
  irs_dv01 ← swap_dv01_from_par_curve df_swaps_ccy tenor_swap swap_freq_by_ccy;
  if usable irs_dv01 then
    let notional_irs := dv01_bond / irs_dv01 * 100 in
    Ok (IrsSized tenor_swap irs_dv01 (py_round notional_irs 4))
  else Ok (IrsNote "Courbe swaps indisponible").

(** The blocks after the bond DV01 is known. *)
Definition hedge_legs (dv01_bond T_years : float)
    (df_swaps_ccy : list swap_quote) (futures_symbol : option string)
    (swap_freq_by_ccy : Z) : result proposal :=
  let fut := futures_block dv01_bond futures_symbol in
  leg ← irs_block dv01_bond T_years df_swaps_ccy swap_freq_by_ccy;
  Ok (mkProposal dv01_bond fut leg
        (py_round (liquidity_score true (Some 1.0) (Some 50.0)) 2)).

Definition hedge_proposal (face coupon_pct ytm_pct T_years : float)
    (df_swaps_ccy : list swap_quote) (futures_symbol : option string)
    (swap_freq_by_ccy : Z) : result proposal :=
  dv01_bond ← bond_dv01 face coupon_pct ytm_pct T_years 2 1.0;
  hedge_legs dv01_bond T_years df_swaps_ccy futures_symbol swap_freq_by_ccy.

End Hedging.

(** ** Swap curves of the loader ([modules/swap_loader.py]) *)

Module SwapLoader.
Import Tenor.
Local Open Scope Q_scope.

(** [swap_loader._tenor_to_years]: the parser of the loader returns nan
    where the curve parsers return None. *)
Definition _tenor_to_years (t : string) : result fval :=
  let t := upper (strip (text t)) in
  if endswith t "Y" then py_float (drop_last t)
  else if endswith t "M" then v ← py_float (drop_last t); Ok (fdiv v 12)
  else Ok NaN.

(** The stub curves: tenor label and rate in %, in the order of the
    dictionary. *)
Definition EUR : list (string * Q) :=
  [("1Y"%string, 3.40); ("2Y"%string, 3.10); ("3Y"%string, 2.90);
   ("5Y"%string, 2.70); ("7Y"%string, 2.60); ("10Y"%string, 2.55);
   ("15Y"%string, 2.50); ("20Y"%string, 2.50); ("30Y"%string, 2.45)].
Definition USD : list (string * Q) :=
  [("1Y"%string, 4.80); ("2Y"%string, 4.30); ("3Y"%string, 4.10);
   ("5Y"%string, 3.90); ("7Y"%string, 3.80); ("10Y"%string, 3.75);
   ("15Y"%string, 3.70); ("20Y"%string, 3.65); ("30Y"%string, 3.60)].
Definition CAD : list (string * Q) :=
  [("1Y"%string, 4.30); ("2Y"%string, 3.90); ("3Y"%string, 3.75);
   ("5Y"%string, 3.55); ("7Y"%string, 3.45); ("10Y"%string, 3.40);
   ("15Y"%string, 3.35); ("20Y"%string, 3.30); ("30Y"%string, 3.25)].
Definition GBP : list (string * Q) :=
  [("1Y"%string, 5.10); ("2Y"%string, 4.60); ("3Y"%string, 4.30);
   ("5Y"%string, 4.05); ("7Y"%string, 3.95); ("10Y"%string, 3.85);
   ("15Y"%string, 3.80); ("20Y"%string, 3.75); ("30Y"%string, 3.70)].
Definition JPY : list (string * Q) :=
  [("1Y"%string, 0.35); ("2Y"%string, 0.40); ("3Y"%string, 0.45);
   ("5Y"%string, 0.55); ("7Y"%string, 0.65); ("10Y"%string, 0.75);
   ("15Y"%string, 0.90); ("20Y"%string, 1.00); ("30Y"%string, 1.10)].
Definition AUD : list (string * Q) :=
  [("1Y"%string, 4.10); ("2Y"%string, 3.95); ("3Y"%string, 3.90);
   ("5Y"%string, 3.85); ("7Y"%string, 3.90); ("10Y"%string, 3.95);
   ("15Y"%string, 4.00); ("20Y"%string, 4.00); ("30Y"%string, 4.05)].
Definition NZD : list (string * Q) :=
  [("1Y"%string, 4.50); ("2Y"%string, 4.10); ("3Y"%string, 3.95);
   ("5Y"%string, 3.80); ("7Y"%string, 3.80); ("10Y"%string, 3.80);
   ("15Y"%string, 3.85); ("20Y"%string, 3.85); ("30Y"%string, 3.90)].
Definition SEK : list (string * Q) :=
  [("1Y"%string, 3.70); ("2Y"%string, 3.35); ("3Y"%string, 3.20);
   ("5Y"%string, 3.05); ("7Y"%string, 2.95); ("10Y"%string, 2.90);
   ("15Y"%string, 2.85); ("20Y"%string, 2.85); ("30Y"%string, 2.80)].

Definition data : gmap string (list (string * Q)) :=
  list_to_map
    [("EUR"%string, EUR); ("USD"%string, USD); ("CAD"%string, CAD);
     ("GBP"%string, GBP); ("JPY"%string, JPY); ("AUD"%string, AUD);
     ("NZD"%string, NZD); ("SEK"%string, SEK)].

(** A row of the returned frame: [currency], [tenor], [years], [rate]. *)
Record swap_row : Type := mkLoaded {
  l_currency : string;
  l_tenor : string;
  l_years : fval;
  l_rate : Q
}.

(** [[(ccy, t, _tenor_to_years(t), r) for t, r in curve.items()]] *)
Fixpoint curve_rows (ccy : string) (curve : list (string * Q))
    : result (list swap_row) :=
  match curve with
  | [] => Ok []
  | (t, r) :: curve' =>
      y ← _tenor_to_years t;
      rows ← curve_rows ccy curve';
      Ok (mkLoaded ccy t y r :: rows)
  end.

(** [a < b] on floats that are not nan. *)
Definition fval_lt (a b : fval) : bool :=
  match a, b with
  | Fin x, Fin y => negb (Qle_bool y x)
  | Fin _, Inf neg => negb neg
  | Inf neg, Fin _ => neg
  | Inf n1, Inf n2 => n1 && negb n2
  | _, _ => false
  end.

Definition is_nan (v : fval) : bool :=
  match v with
  | NaN => true
  | _ => false
  end.

Fixpoint insert_years (x : swap_row) (l : list swap_row) : list swap_row :=
  match l with
  | [] => [x]
  | y :: l' =>
      if fval_lt (l_years y) (l_years x) then y :: insert_years x l'
      else x :: l
  end.

(** [sort_values("years")]: ascending, rows with equal keys in their
    order, nan last. *)
Definition sort_values_years (rows : list swap_row) : list swap_row :=
  fold_right insert_years []
    (List.filter (fun r => negb (is_nan (l_years r))) rows)
  ++ List.filter (fun r => is_nan (l_years r)) rows.

Definition py_upper (s : string) : string :=
  string_of_list_ascii (upper (text s)).

(** [load_swaps]; [None] is a missing argument value.  A currency without a
    curve gets the rates of the EUR curve under its own label. *)
Definition load_swaps (currency : option string) : result (list swap_row) :=
  let ccy := py_upper (default ""%string currency) in
  match default [] (data !! ccy) with
  | [] =>
      match data !! "EUR"%string with
      | Some base =>
          rows ← curve_rows ccy base;
          Ok (sort_values_years rows)
      | None => Raise KeyError
      end
  | curve =>
      rows ← curve_rows ccy curve;
      Ok (sort_values_years rows)
  end.

(** The loaded frame read as a quoted curve (columns [tenor], [years],
    [rate]): a nan maturity is a missing value; an infinite maturity is
    outside the rational curve model and has no image. *)
Definition quote_of (r : swap_row) : option quote :=
  match l_years r with
  | Fin y => Some (mkQuote (Some (l_tenor r)) (Some y) (Some (l_rate r)))
  | NaN => Some (mkQuote (Some (l_tenor r)) None (Some (l_rate r)))
  | Inf _ => None
  end.

Definition curve_of (rows : list swap_row) : option (list quote) :=
  mapM quote_of rows.

End SwapLoader.

(** * Properties *)

Lemma bind_Ok {A B} (r : result A) (f : A -> result B) (b : B) :
  r ≫= f = Ok b -> exists a, r = Ok a /\ f a = Ok b.
Proof. destruct r as [a|e]; simpl; [eauto | discriminate]. Qed.

(** ** Hedge sizing *)

Section HedgeFacts.
Import Hedging.
Local Open Scope float_scope.

(** The score attached to every proposal: the three default contributions
    add up, in binary64, to a value just below 0.775. *)
Lemma liquidity_default_sum :
  liquidity_score true (Some 1.0) (Some 50.0) = 0.7749999999999999.
Proof. vm_compute. reflexivity. Qed.

Lemma liquidity_default_rounded :
  py_round (liquidity_score true (Some 1.0) (Some 50.0)) 2 = 0.77.
Proof. vm_compute. reflexivity. Qed.

Lemma hedge_legs_liquidity b T df fs freq p :
  hedge_legs b T df fs freq = Ok p -> liquidity p = 0.77.
Proof.
  unfold hedge_legs. intros H.
  apply bind_Ok in H as (leg & _ & H). injection H as <-.
  simpl. apply liquidity_default_rounded.
Qed.

(** C10 (as stated, refuted): a proposal whose liquidity score is not 0.78. *)
Lemma liquidity_score_not_078 :
  exists p, hedge_proposal 100 5 3 7.3 [] None 2 = Ok p /\ liquidity p <> 0.78.
Proof.
  eexists. split; [vm_compute; reflexivity|].
  simpl. intros E.
  assert (H : (0.77 =? 0.78) = true) by (rewrite E; vm_compute; reflexivity).
  vm_compute in H. discriminate.
Qed.

(** C10 (amended): whatever the bond, the swap curve and the futures symbol,
    a returned proposal carries the same liquidity score; the score comes
    from the default arguments, whose binary64 sum 0.7749999999999999 rounds
    to 0.77. *)
Theorem liquidity_score_constant face coupon_pct ytm_pct T_years df_swaps_ccy
    futures_symbol swap_freq_by_ccy p :
  hedge_proposal face coupon_pct ytm_pct T_years df_swaps_ccy futures_symbol
    swap_freq_by_ccy = Ok p ->
  liquidity p = py_round (liquidity_score true (Some 1.0) (Some 50.0)) 2 /\
  liquidity_score true (Some 1.0) (Some 50.0) = 0.7749999999999999 /\
  liquidity p = 0.77.
Proof.
  unfold hedge_proposal. intros H.
  apply bind_Ok in H as (b & _ & H).
  pose proof (hedge_legs_liquidity _ _ _ _ _ _ H) as L.
  split; [|split]; [|apply liquidity_default_sum|exact L].
  rewrite L. symmetry. apply liquidity_default_rounded.
Qed.

Lemma liquidity_score_constant_witness :
  exists p,
    hedge_proposal 100 5 3 7.3 [] (Some "FGBL"%string) 2 = Ok p /\
    liquidity p = 0.77.
Proof.
  eexists. split; [vm_compute; reflexivity|].
  eapply (liquidity_score_constant 100 5 3 7.3 [] (Some "FGBL"%string) 2).
  vm_compute. reflexivity.
Defined.

Lemma futures_block_known b sym :
  usable (futures_dv01_lookup sym) = true ->
  futures_block b (Some sym) =
    Some (FuturesSized sym (futures_dv01_lookup sym)
            (py_round (b / futures_dv01_lookup sym) 2)).
Proof.
  unfold futures_block. intros H.
  destruct (String.eqb sym "") eqn:E.
  - apply String.eqb_eq in E. subst sym. vm_compute in H. discriminate.
  - now rewrite H.
Qed.



(** Every entry of the futures table is a positive DV01. *)
Lemma table_positive k d : table !! k = Some d -> usable d = true.
Proof.
  unfold table. intros H. apply elem_of_list_to_map_2 in H.
  repeat (apply elem_of_cons in H as [H|H]; [injection H as -> ->; reflexivity|]).
  now apply elem_of_nil in H.
Qed.

Lemma irs_block_usable b T df freq tenor dv :
  pick_nearest_swap_tenor df T = Ok tenor ->
  swap_dv01_from_par_curve df tenor freq = Ok dv ->
  irs_block b T df freq =
    Ok (if usable dv then IrsSized tenor dv (py_round (b / dv * 100) 4)
        else IrsNote "Courbe swaps indisponible").
Proof.
  unfold irs_block. intros ->. simpl. intros ->. simpl.
  now destruct (usable dv).
Qed.

Lemma irs_block_empty b T freq :
  irs_block b T [] freq = Ok (IrsNote "Courbe swaps indisponible").
Proof. reflexivity. Qed.

(** C7: with a known futures symbol and a usable swap curve, the futures leg
    holds [bondDv01 / dv01PerContract] rounded to two decimals (a fraction
    of a contract is a valid value) and the swap leg holds
    [bondDv01 / swapDv01Per100 * 100] rounded to four; at a bond DV01 of 50
    the FGBL leg (85 per contract) is 0.59 contracts, within 0.005 of 0.588,
    and a swap DV01 of 8 per 100 gives a notional of 625. *)
Theorem hedge_sizing face coupon_pct ytm_pct T_years df_swaps_ccy sym
    swap_freq_by_ccy b tenor dv :
  bond_dv01 face coupon_pct ytm_pct T_years 2 1.0 = Ok b ->
  usable (futures_dv01_lookup sym) = true ->
  pick_nearest_swap_tenor df_swaps_ccy T_years = Ok tenor ->
  swap_dv01_from_par_curve df_swaps_ccy tenor swap_freq_by_ccy = Ok dv ->
  usable dv = true ->
  hedge_proposal face coupon_pct ytm_pct T_years df_swaps_ccy (Some sym)
    swap_freq_by_ccy =
    Ok (mkProposal b
          (Some (FuturesSized sym (futures_dv01_lookup sym)
                   (py_round (b / futures_dv01_lookup sym) 2)))
          (IrsSized tenor dv (py_round (b / dv * 100) 4))
          (py_round (liquidity_score true (Some 1.0) (Some 50.0)) 2)) /\
  hedge_legs 50 0.5 [mkSwap 0.16 3.0] (Some "FGBL"%string) 2 =
    Ok (mkProposal 50 (Some (FuturesSized "FGBL" 85 0.59))
          (IrsSized 0.16 8 625) 0.77) /\
  (abs (0.59 - 0.588) <? 0.005) = true /\
  py_round (50 / 85) 2 = 0.59 /\
  py_round (50 / 8 * 100) 4 = 625.
Proof.
  intros Hb Hf Hp Hs Hu. split.
  - unfold hedge_proposal. rewrite Hb. simpl. unfold hedge_legs.
    rewrite (futures_block_known _ _ Hf).
    rewrite (irs_block_usable _ _ _ _ _ _ Hp Hs), Hu. reflexivity.
  - repeat split; vm_compute; reflexivity.
Qed.

Lemma hedge_sizing_witness :
  hedge_proposal 100 5 3 7.3
    [mkSwap 5 2.7; mkSwap 7 2.6; mkSwap 10 2.55] (Some "fgbl"%string) 2 =
    Ok (mkProposal 717.6529229126061
          (Some (FuturesSized "fgbl" 85 8.44)) (IrsSized 7 350 205.0437) 0.77).
Proof.
  refine (eq_trans
    (proj1 (hedge_sizing 100 5 3 7.3 [mkSwap 5 2.7; mkSwap 7 2.6; mkSwap 10 2.55]
              "fgbl" 2 717.6529229126061 7 350 _ _ _ _ _)) _);
    vm_compute; reflexivity.
Defined.




End HedgeFacts.

(** ** Tenor parsing *)

Section TenorFacts.
Import Tenor.
Local Open Scope Q_scope.

Lemma digit_cases d : (d < 10)%nat ->
  In d [0; 1; 2; 3; 4; 5; 6; 7; 8; 9]%nat.
Proof. intros H. simpl. lia. Qed.

Ltac each_digit d H :=
  apply digit_cases in H; simpl in H;
  repeat (destruct H as [<-|H]; [reflexivity|]); contradiction.




Lemma digit_not_sign d : (d < 10)%nat ->
  sign_of (digit_char d :: []) = (false, [digit_char d]).
Proof. intros H. each_digit d H. Qed.


















End TenorFacts.

(** ** Sorting and rounding *)

Section SortFacts.
Context {A : Type} (key : A -> Q).
Local Open Scope Q_scope.

Lemma insert_by_perm x l : Permutation (insert_by key x l) (x :: l).
Proof.
  induction l as [|y l IH]; simpl; [reflexivity|].
  destruct (Qle_bool (key x) (key y)); [reflexivity|].
  rewrite IH. apply perm_swap.
Qed.

Lemma sort_by_perm l : Permutation (sort_by key l) l.
Proof.
  induction l as [|x l IH]; simpl; [reflexivity|].
  rewrite insert_by_perm. now constructor.
Qed.

Lemma sort_by_length l : length (sort_by key l) = length l.
Proof. apply Permutation_length, sort_by_perm. Qed.

Lemma sort_by_In x l : In x (sort_by key l) <-> In x l.
Proof.
  split; apply Permutation_in; [|symmetry]; apply sort_by_perm.
Qed.

Lemma insert_by_sorted x l :
  StronglySorted (key_le key) l -> StronglySorted (key_le key) (insert_by key x l).
Proof.
  induction 1 as [|y l Hs IH Hy]; simpl.
  - repeat constructor.
  - destruct (Qle_bool (key x) (key y)) eqn:E.
    + apply Qle_bool_iff in E. constructor; [now constructor|].
      constructor; [exact E|].
      eapply List.Forall_impl; [|exact Hy].
      intros z Hz. unfold key_le in *. lra.
    + constructor; [exact IH|].
      assert (Hxy : key y <= key x).
      { destruct (Qlt_le_dec (key y) (key x)) as [H|H]; [lra|].
        apply Qle_bool_iff in H. congruence. }
      eapply Permutation_Forall; [symmetry; apply insert_by_perm|].
      constructor; assumption.
Qed.

Lemma sort_by_sorted l : StronglySorted (key_le key) (sort_by key l).
Proof.
  induction l; simpl; [constructor|]. now apply insert_by_sorted.
Qed.

Lemma sort_by_id l : StronglySorted (key_le key) l -> sort_by key l = l.
Proof.
  induction 1 as [|x l Hs IH Hx]; simpl; [reflexivity|].
  rewrite IH. destruct l as [|y l]; [reflexivity|]. simpl.
  inversion Hx as [|? ? Hxy _]; subst.
  apply Qle_bool_iff in Hxy. now rewrite Hxy.
Qed.

End SortFacts.

Section RoundFacts.
Local Open Scope Q_scope.

Lemma round_half_even_bounds x :
  (Qfloor x <= round_half_even x <= Qfloor x + 1)%Z.
Proof.
  unfold round_half_even.
  destruct (Qcompare _ _); [destruct (Z.even _)| |]; lia.
Qed.

Lemma round_half_even_mono x y :
  x <= y -> (round_half_even x <= round_half_even y)%Z.
Proof.
  intros Hxy.
  pose proof (Qfloor_resp_le _ _ Hxy) as Hf.
  destruct (Z.eq_dec (Qfloor x) (Qfloor y)) as [E|NE].
  - unfold round_half_even. rewrite <- E.
    destruct (Qcompare_spec (x - inject_Z (Qfloor x)) (1 # 2)) as [H1|H1|H1];
    destruct (Qcompare_spec (y - inject_Z (Qfloor x)) (1 # 2)) as [H2|H2|H2];
    try destruct (Z.even _); try lia; exfalso; lra.
  - pose proof (round_half_even_bounds x). pose proof (round_half_even_bounds y).
    lia.
Qed.

Lemma round_half_even_Z (z : Z) : round_half_even (inject_Z z) = z.
Proof.
  unfold round_half_even. rewrite Qfloor_Z.
  destruct (Qcompare_spec (inject_Z z - inject_Z z) (1 # 2)) as [H|H|H];
    [exfalso; lra | reflexivity | exfalso; lra].
Qed.

Lemma py_min_spec a b : (b < a /\ py_min a b = b) \/ (a <= b /\ py_min a b = a).
Proof. unfold py_min. destruct (Qlt_le_dec b a); auto. Qed.

Lemma py_max_spec a b : (a < b /\ py_max a b = b) \/ (b <= a /\ py_max a b = a).
Proof. unfold py_max. destruct (Qlt_le_dec a b); auto. Qed.

Lemma py_div_Ok a b : ~ b == 0 -> py_div a b = Ok (a / b).
Proof.
  intros H. unfold py_div. destruct (Qeq_bool b 0) eqn:E; [|reflexivity].
  apply Qeq_bool_iff in E. contradiction.
Qed.

Lemma py_div_inv a b q : py_div a b = Ok q -> ~ b == 0 /\ q = a / b.
Proof.
  unfold py_div. destruct (Qeq_bool b 0) eqn:E; [discriminate|].
  intros [= <-]. split; [|reflexivity].
  intros H. apply Qeq_bool_iff in H. congruence.
Qed.

End RoundFacts.

(** ** Zero-curve bootstrapper *)

Section BootstrapFacts.
Import Bootstrap.
Local Open Scope Q_scope.

(** *** The clamp *)


Lemma clamp_id x : in_range x -> clamp x = x.
Proof.
  unfold in_range, clamp, py_max, py_min. intros [H1 H2].
  destruct (Qlt_le_dec 1 x); [lra|].
  destruct (Qlt_le_dec x q1e_12); [lra|]. reflexivity.
Qed.

Lemma clamp_above_floor x : q1e_12 < clamp x -> clamp x = py_min x 1 /\ q1e_12 < x.
Proof.
  unfold clamp. intros H.
  destruct (py_max_spec (py_min x 1) q1e_12) as [[H1 E]|[H1 E]]; rewrite E in *.
  - lra.
  - split; [reflexivity|].
    destruct (py_min_spec x 1) as [[H2 E2]|[H2 E2]]; rewrite E2 in *; lra.
Qed.





(** *** One iteration *)

Lemma bond_step_inv freq comp DF rows p st' :
  bond_step freq comp (DF, rows) p = Ok st' ->
  exists v t z,
    bond_solve freq DF p = Ok v /\
    py_div (inject_Z (fst p)) (inject_Z freq) = Ok t /\
    zero_yield comp v t = Ok z /\
    st' = (<[fst p := v]> DF, rows ++ [mkZero t z]).
Proof.
  destruct p as [N y]. unfold bond_step, bond_solve. simpl. intros H.
  apply bind_Ok in H as (c & Hc & H). rewrite Hc. simpl.
  apply bind_Ok in H as (v & Hv & H).
  apply bind_Ok in H as (t & Ht & H).
  apply bind_Ok in H as (z & Hz & [= <-]).
  now exists v, t, z.
Qed.

Lemma swap_step_inv freq comp alpha DF rows p st' :
  swap_step freq comp alpha (DF, rows) p = Ok st' ->
  exists v t z,
    swap_solve alpha DF p = Ok v /\
    py_div (inject_Z (fst p)) (inject_Z freq) = Ok t /\
    zero_yield comp v t = Ok z /\
    st' = (<[fst p := v]> DF, rows ++ [mkZero t z]).
Proof.
  destruct p as [N y]. unfold swap_step, swap_solve. simpl. intros H.
  apply bind_Ok in H as (v & Hv & H).
  apply bind_Ok in H as (t & Ht & H).
  apply bind_Ok in H as (z & Hz & [= <-]).
  now exists v, t, z.
Qed.



(** The sum reads the table only at the indices [1 .. N-1]. *)
Lemma In_range a b k : In k (range a b) <-> (a <= k < b)%Z.
Proof.
  unfold range. rewrite in_map_iff. split.
  - intros (i & <- & Hi). apply in_seq in Hi. lia.
  - intros H. exists (Z.to_nat (k - a)). split; [lia|]. apply in_seq. lia.
Qed.

Lemma weighted_sum_local w DF DF' N :
  (forall k, (1 <= k < N)%Z -> DF !! k = DF' !! k) ->
  weighted_sum w DF N = weighted_sum w DF' N.
Proof.
  intros H. unfold weighted_sum.
  assert (G : forall k, In k (range 1 N) -> DF !! k = DF' !! k)
    by (intros k Hk; apply H, In_range, Hk).
  clear H. generalize 0. induction (range 1 N) as [|k l IH]; intros acc.
  - reflexivity.
  - simpl. rewrite (G k) by now left.
    apply IH. intros k' Hk'. apply G. now right.
Qed.

Lemma bond_solve_local freq DF DF' p :
  (forall k, (1 <= k < fst p)%Z -> DF !! k = DF' !! k) ->
  bond_solve freq DF p = bond_solve freq DF' p.
Proof.
  intros H. unfold bond_solve, bond_DF.
  destruct (coupon freq (snd p)) as [c|e]; [simpl|reflexivity].
  now rewrite (weighted_sum_local c DF DF' (fst p) H).
Qed.

Lemma swap_solve_local alpha DF DF' p :
  (forall k, (1 <= k < fst p)%Z -> DF !! k = DF' !! k) ->
  swap_solve alpha DF p = swap_solve alpha DF' p.
Proof.
  intros H. unfold swap_solve, swap_DF.
  now rewrite (weighted_sum_local alpha DF DF' (fst p) H).
Qed.

End BootstrapFacts.

(** *** The loop *)

Section LoopFacts.
Import Bootstrap.
Local Open Scope Q_scope.

Context (freq : Z) (comp : string).
Context (step : gmap Z Q * list zero_row -> Z * Q ->
                result (gmap Z Q * list zero_row)).
Context (solve : gmap Z Q -> Z * Q -> result Q).

Hypothesis step_inv : forall DF rows p st',
  step (DF, rows) p = Ok st' ->
  exists v t z,
    solve DF p = Ok v /\
    py_div (inject_Z (fst p)) (inject_Z freq) = Ok t /\
    zero_yield comp v t = Ok z /\
    st' = (<[fst p := v]> DF, rows ++ [mkZero t z]).

Hypothesis step_ok : forall DF rows p v t z,
  solve DF p = Ok v ->
  py_div (inject_Z (fst p)) (inject_Z freq) = Ok t ->
  zero_yield comp v t = Ok z ->
  step (DF, rows) p = Ok (<[fst p := v]> DF, rows ++ [mkZero t z]).

Hypothesis solve_local : forall DF DF' p,
  (forall k, (1 <= k < fst p)%Z -> DF !! k = DF' !! k) ->
  solve DF p = solve DF' p.

Hypothesis solve_in_range : forall DF p v, solve DF p = Ok v -> in_range v.


(** With increasing indices, the final table satisfies the rule of every
    point, read on the final table itself; entries of other indices are
    untouched and one row is appended per point, in order. *)
Lemma run_spec pts : forall DF0 rows0 DF rows,
  StronglySorted Z.lt (List.map fst pts) ->
  run step pts (DF0, rows0) = Ok (DF, rows) ->
  (forall k, ~ In k (List.map fst pts) -> DF !! k = DF0 !! k) /\
  exists rows', rows = rows0 ++ rows' /\
                Forall2 (emitted solve freq comp DF) pts rows'.
Proof.
  induction pts as [|p pts IH]; intros DF0 rows0 DF rows Hs H.
  - injection H as <- <-. split; [reflexivity|].
    exists []. split; [now rewrite app_nil_r | constructor].
  - simpl in H. apply bind_Ok in H as (st1 & H1 & H).
    apply step_inv in H1 as (v & t & z & Hv & Ht & Hz & ->).
    simpl in Hs. apply StronglySorted_inv in Hs as [Hs Hlt].
    destruct (IH _ _ _ _ Hs H) as (Hframe & rows' & -> & HF).
    assert (Hnotin : ~ In (fst p) (List.map fst pts)).
    { intros Hin. rewrite List.Forall_forall in Hlt. apply Hlt in Hin. lia. }
    assert (Hbelow : forall k, (k < fst p)%Z -> DF !! k = DF0 !! k).
    { intros k Hk. rewrite Hframe.
      - apply lookup_insert_ne. lia.
      - intros Hin. rewrite List.Forall_forall in Hlt. apply Hlt in Hin. lia. }
    split.
    + intros k Hk. simpl in Hk. rewrite Hframe by tauto.
      apply lookup_insert_ne. tauto.
    + exists (mkZero t z :: rows'). split; [now rewrite <- app_assoc|].
      constructor; [|exact HF].
      exists v, t, z. repeat split; try assumption.
      * rewrite <- Hv. apply solve_local. intros k Hk. apply Hbelow. lia.
      * rewrite (Hframe _ Hnotin). apply lookup_insert_eq.
Qed.


End LoopFacts.

Section LoopInstances.
Import Bootstrap.
Local Open Scope Q_scope.





Lemma bond_loop_spec freq comp pts DF rows :
  StronglySorted Z.lt (List.map fst pts) ->
  bond_loop freq comp pts = Ok (DF, rows) ->
  (forall k, ~ In k (List.map fst pts) -> DF !! k = None) /\
  Forall2 (emitted (bond_solve freq) freq comp DF) pts rows.
Proof.
  intros Hs H.
  destruct (run_spec freq comp _ (bond_solve freq)
              (bond_step_inv freq comp) (bond_solve_local freq)
              pts ∅ [] DF rows Hs H) as (Hf & rows' & -> & HF).
  split; [|exact HF]. intros k Hk. now rewrite (Hf k Hk).
Qed.

Lemma swap_loop_spec freq comp pts DF rows :
  StronglySorted Z.lt (List.map fst pts) ->
  swap_loop freq comp pts = Ok (DF, rows) ->
  (forall k, ~ In k (List.map fst pts) -> DF !! k = None) /\
  Forall2 (emitted (swap_solve (1 / inject_Z freq)) freq comp DF) pts rows.
Proof.
  intros Hs H. unfold swap_loop in H.
  apply bind_Ok in H as (alpha & Ha & H).
  apply py_div_inv in Ha as [_ ->].
  destruct (run_spec freq comp _ (swap_solve (1 / inject_Z freq))
              (swap_step_inv freq comp _) (swap_solve_local _)
              pts ∅ [] DF rows Hs H) as (Hf & rows' & -> & HF).
  split; [|exact HF]. intros k Hk. now rewrite (Hf k Hk).
Qed.

End LoopInstances.

(** *** The frame the loop iterates over *)

Section PointsFacts.
Import Bootstrap.
Local Open Scope Q_scope.

Lemma period_mono freq t t' :
  (0 < freq)%Z -> t <= t' -> (period freq t <= period freq t')%Z.
Proof.
  intros Hf H. apply round_half_even_mono.
  apply Qmult_le_compat_r; [exact H|].
  unfold Qle. simpl. lia.
Qed.

Lemma drop_duplicates_incl l p : In p (drop_duplicates l) -> In p l.
Proof.
  revert p. induction l as [|a l IH]; intros p; simpl; [tauto|].
  intros [->|H]; [now left|].
  apply filter_In in H as [H _]. right. now apply IH.
Qed.



Lemma filter_sorted {A} (R : A -> A -> Prop) f l :
  StronglySorted R l -> StronglySorted R (List.filter f l).
Proof.
  induction 1 as [|a l Hs IH Ha]; simpl; [constructor|].
  destruct (f a); [|exact IH].
  constructor; [exact IH|].
  apply List.Forall_forall. intros x Hx. apply filter_In in Hx as [Hx _].
  rewrite List.Forall_forall in Ha. now apply Ha.
Qed.

Lemma drop_duplicates_sorted l :
  StronglySorted (fun a b => (fst a <= fst b)%Z) l ->
  StronglySorted (fun a b => (fst a < fst b)%Z) (drop_duplicates l).
Proof.
  induction 1 as [|a l Hs IH Ha]; simpl; [constructor|].
  constructor; [now apply filter_sorted|].
  apply List.Forall_forall. intros x Hx. apply filter_In in Hx as [Hx Hne].
  apply drop_duplicates_incl in Hx.
  rewrite List.Forall_forall in Ha. apply Ha in Hx.
  apply negb_true_iff, Z.eqb_neq in Hne. lia.
Qed.

Lemma map_sorted {A B} (R : A -> A -> Prop) (S : B -> B -> Prop) (f : A -> B) l :
  (forall a b, R a b -> S (f a) (f b)) ->
  StronglySorted R l -> StronglySorted S (List.map f l).
Proof.
  intros H. induction 1 as [|a l Hs IH Ha]; simpl; constructor; [exact IH|].
  apply List.Forall_forall. intros y Hy.
  apply in_map_iff in Hy as (x & <- & Hx).
  rewrite List.Forall_forall in Ha. auto.
Qed.


Lemma points_sorted freq d :
  (0 < freq)%Z -> StronglySorted Z.lt (List.map fst (points freq d)).
Proof.
  intros Hf. unfold points.
  apply (map_sorted (fun a b => (fst a < fst b)%Z)); [auto|].
  apply drop_duplicates_sorted, filter_sorted.
  apply (map_sorted (key_le fst)); [|apply sort_by_sorted].
  intros a b H. simpl. now apply period_mono.
Qed.


Lemma sorted_app_r {A} (R : A -> A -> Prop) l1 l2 :
  StronglySorted R (l1 ++ l2) -> StronglySorted R l2.
Proof.
  induction l1 as [|a l1 IH]; simpl; [auto|].
  intros H. apply StronglySorted_inv in H as [H _]. auto.
Qed.



End PointsFacts.

(** *** The emitted rows *)

Section OutputFacts.
Import Bootstrap.
Local Open Scope Q_scope.

Lemma emitted_years solve freq comp DF p r :
  emitted solve freq comp DF p r ->
  zr_years r = inject_Z (fst p) / inject_Z freq.
Proof.
  intros (v & t & z & _ & _ & Ht & _ & ->). simpl.
  now apply py_div_inv in Ht as [_ ->].
Qed.

Lemma years_mono freq N N' :
  (0 < freq)%Z -> (N < N')%Z ->
  inject_Z N / inject_Z freq <= inject_Z N' / inject_Z freq.
Proof.
  intros Hf H. unfold Qdiv. apply Qmult_le_compat_r.
  - unfold Qle. simpl. lia.
  - apply Qinv_le_0_compat. unfold Qle. simpl. lia.
Qed.

Lemma Forall2_In_r {A B} (R : A -> B -> Prop) l l' y :
  Forall2 R l l' -> In y l' -> exists x, In x l /\ R x y.
Proof.
  induction 1 as [|a b l l' Hab HF IH]; simpl; [tauto|].
  intros [<-|H]; [exists a; auto|].
  destruct (IH H) as (x & Hx & Hxy). exists x. auto.
Qed.

Lemma emitted_sorted solve freq comp DF pts rows :
  (0 < freq)%Z ->
  StronglySorted Z.lt (List.map fst pts) ->
  Forall2 (emitted solve freq comp DF) pts rows ->
  StronglySorted (key_le zr_years) rows.
Proof.
  intros Hf Hs HF. induction HF as [|p r pts rows Hpr HF IH]; [constructor|].
  simpl in Hs. apply StronglySorted_inv in Hs as [Hs Hlt].
  constructor; [now apply IH|].
  apply List.Forall_forall. intros r' Hr'.
  destruct (Forall2_In_r _ _ _ _ HF Hr') as (p' & Hp' & Hpr').
  unfold key_le.
  rewrite (emitted_years _ _ _ _ _ _ Hpr), (emitted_years _ _ _ _ _ _ Hpr').
  apply years_mono; [exact Hf|].
  rewrite List.Forall_forall in Hlt. apply Hlt, in_map, Hp'.
Qed.

Lemma emit_inv rows out : emit rows = Ok out -> out = sort_by zr_years rows.
Proof. destruct rows; [discriminate|]. now intros [= <-]. Qed.

(** The stored value in closed form. *)
Lemma bond_DF_closed c DF N v :
  bond_DF c DF N = Ok v ->
  (100 - weighted_sum c DF N <= q1e_9 /\ v = q1e_12) \/
  (q1e_9 < 100 - weighted_sum c DF N /\ ~ 100 + c == 0 /\
   v = clamp ((100 - weighted_sum c DF N) / (100 + c))).
Proof.
  unfold bond_DF. set (numer := 100 - weighted_sum c DF N). intros H.
  destruct (Qle_bool numer q1e_9) eqn:E.
  - left. apply Qle_bool_iff in E. simpl in H. injection H as <-. now split.
  - right. apply bind_Ok in H as (x & Hx & [= <-]).
    apply py_div_inv in Hx as [Hd ->]. split; [|now split].
    destruct (Qlt_le_dec q1e_9 numer) as [L|L]; [exact L|].
    apply Qle_bool_iff in L. congruence.
Qed.



Lemma coupon_closed freq y c :
  coupon freq y = Ok c -> (freq <> 0)%Z /\ c = y / 100 / inject_Z freq * 100.
Proof.
  unfold coupon. intros H. apply bind_Ok in H as (q & Hq & [= <-]).
  apply py_div_inv in Hq as [Hd ->]. split; [|reflexivity].
  intros ->. now apply Hd.
Qed.

Lemma coupon_Ok freq y :
  (freq <> 0)%Z -> coupon freq y = Ok (y / 100 / inject_Z freq * 100).
Proof.
  intros H. unfold coupon. rewrite py_div_Ok; [reflexivity|].
  intros E. unfold Qeq in E. simpl in E. lia.
Qed.




End OutputFacts.

(** *** Sums over the table *)

Section SumFacts.
Import Bootstrap.
Local Open Scope Q_scope.

Lemma weighted_sum_factor w DF N :
  weighted_sum w DF N == w * table_sum DF N.
Proof.
  unfold weighted_sum, table_sum.
  assert (G : forall l a b, a == w * b ->
    fold_left (fun acc k => match DF !! k with
                            | Some v => acc + w * v
                            | None => acc
                            end) l a
    == w * fold_left (fun acc k => acc + default 0 (DF !! k)) l b).
  { induction l as [|k l IH]; intros a b H; simpl; [exact H|].
    apply IH. destruct (DF !! k); simpl; rewrite H; ring. }
  apply G. ring.
Qed.

Lemma range_succ a b : (a <= b)%Z -> range a (b + 1) = range a b ++ [b].
Proof.
  intros H. unfold range.
  replace (Z.to_nat (b + 1 - a)) with (S (Z.to_nat (b - a))) by lia.
  rewrite seq_S, map_app. simpl. f_equal. f_equal. lia.
Qed.

Lemma table_sum_succ DF N :
  (1 <= N)%Z -> table_sum DF (N + 1) = table_sum DF N + default 0 (DF !! N).
Proof.
  intros H. unfold table_sum. rewrite (range_succ _ _ H), fold_left_app.
  reflexivity.
Qed.


Lemma table_sum_first DF : table_sum DF 1 = 0.
Proof. reflexivity. Qed.

End SumFacts.

(** *** The claims on the bootstrapper *)

Section BootstrapClaims.
Import Bootstrap.
Local Open Scope Q_scope.



End BootstrapClaims.

(** *** The two bootstrappers, end to end *)

Section BootstrapSpec.
Import Bootstrap.
Local Open Scope Q_scope.













Lemma swaps_nonempty d freq comp :
  d <> [] ->
  bootstrap_zero_from_par_swaps d freq comp
  = st ← swap_loop freq comp (points freq d); emit (snd st).
Proof. now destruct d. Qed.




End BootstrapSpec.

(** *** Monotone discount factors *)

Section MonotoneFacts.
Import Bootstrap.
Local Open Scope Q_scope.





Lemma Forall2_In_l {A B} (R : A -> B -> Prop) l l' x :
  Forall2 R l l' -> In x l -> exists y, In y l' /\ R x y.
Proof.
  induction 1 as [|a b l l' Hab HF IH]; simpl; [tauto|].
  intros [<-|H]; [exists b; auto|].
  destruct (IH H) as (y & Hy & Hxy). exists y. auto.
Qed.

(** What the loop leaves at a kept point, read on the final table. *)
Lemma bond_loop_at freq comp pts DF rows N y :
  StronglySorted Z.lt (List.map fst pts) ->
  bond_loop freq comp pts = Ok (DF, rows) ->
  In (N, y) pts ->
  exists v, DF !! N = Some v /\ bond_solve freq DF (N, y) = Ok v.
Proof.
  intros Hs Hl Hin.
  destruct (bond_loop_spec _ _ _ _ _ Hs Hl) as [_ HF].
  destruct (Forall2_In_l _ _ _ _ HF Hin) as (r & _ & v & t & z & Hv & Hk & _).
  exists v. now split.
Qed.

Lemma bond_loop_keys freq comp pts DF rows k v :
  StronglySorted Z.lt (List.map fst pts) ->
  bond_loop freq comp pts = Ok (DF, rows) ->
  DF !! k = Some v -> In k (List.map fst pts).
Proof.
  intros Hs Hl Hk.
  destruct (bond_loop_spec _ _ _ _ _ Hs Hl) as [Hframe _].
  destruct (in_dec Z.eq_dec k (List.map fst pts)) as [H|H]; [exact H|].
  rewrite (Hframe k H) in Hk. discriminate.
Qed.




End MonotoneFacts.

(** ** Curve cleaning, alignment and spreads *)

Section CleanFacts.
Import Spread.
Local Open Scope Q_scope.

Lemma sorted_impl {A} (R S : A -> A -> Prop) l :
  (forall a b, R a b -> S a b) -> StronglySorted R l -> StronglySorted S l.
Proof.
  intros H. induction 1 as [|a l Hs IH Ha]; constructor; [exact IH|].
  revert Ha. apply List.Forall_impl. intros b. apply H.
Qed.

Lemma groupby_years_sorted l :
  StronglySorted (key_le c_years) l ->
  StronglySorted (fun g g' => c_years (fst g) < c_years (fst g'))
    (groupby_years l) /\
  (forall g, In g (groupby_years l) ->
     In (fst g) l /\ forall r, In r (snd g) -> In r l /\ c_years r == c_years (fst g)).
Proof.
  induction 1 as [|r l Hs [IH1 IH2] Hr]; simpl.
  - split; [constructor|]. intros g [].
  - rewrite List.Forall_forall in Hr.
    destruct (groupby_years l) as [|[h g] gs] eqn:E.
    + split.
      * constructor; [constructor|constructor].
      * intros g [<-|[]]. simpl. split; [now left|]. intros r' [].
    + apply StronglySorted_inv in IH1 as [IHs IHh]. simpl in IHh.
      destruct (IH2 (h, g) (or_introl eq_refl)) as [Hh Hg]. simpl in Hh, Hg.
      destruct (Qeq_bool (c_years r) (c_years h)) eqn:Eq.
      * apply Qeq_bool_iff in Eq. split.
        -- constructor; [exact IHs|]. simpl.
           revert IHh. apply List.Forall_impl. intros g'. lra.
        -- intros g' [<-|Hg']; simpl.
           ++ split; [now left|]. intros r' [<-|Hr'].
              ** split; [now right|]. lra.
              ** destruct (Hg r' Hr') as [G1 G2]. split; [now right|]. lra.
           ++ destruct (IH2 g' (or_intror Hg')) as [G1 G2].
              split; [now right|]. intros r' Hr'.
              destruct (G2 r' Hr'). split; [now right|assumption].
      * assert (Hlt : c_years r < c_years h).
        { pose proof (Hr h Hh) as Hle. unfold key_le in Hle.
          destruct (Qlt_le_dec (c_years r) (c_years h)) as [L|L]; [exact L|].
          assert (Heq : c_years r == c_years h) by lra.
          apply Qeq_bool_iff in Heq. congruence. }
        split.
        -- constructor; [constructor; assumption|]. constructor; [exact Hlt|].
           revert IHh. apply List.Forall_impl. intros g'. simpl. lra.
        -- intros g' [<-|Hg']; simpl.
           ++ split; [now left|]. intros r' [].
           ++ destruct (IH2 g' Hg') as [G1 G2].
              split; [now right|]. intros r' Hr'.
              destruct (G2 r' Hr'). split; [now right|assumption].
Qed.

Lemma agg_years g : c_years (agg g) = c_years (fst g).
Proof. reflexivity. Qed.

(** The final [sort_values] of the cleaning finds the groups already in
    order. *)
Lemma clean_curve_groups d :
  clean_curve d
  = List.map agg (groupby_years (sort_by c_years (valid_rows d))).
Proof.
  unfold clean_curve. apply sort_by_id.
  destruct (groupby_years_sorted _ (sort_by_sorted c_years (valid_rows d)))
    as [H _].
  apply (map_sorted (fun g g' => c_years (fst g) < c_years (fst g'))); [|exact H].
  intros g g' Hg. unfold key_le. rewrite !agg_years. lra.
Qed.

(** A cleaned curve has strictly ascending maturities: one row per
    maturity. *)
Lemma clean_curve_sorted d : StronglySorted years_lt (clean_curve d).
Proof.
  rewrite clean_curve_groups.
  destruct (groupby_years_sorted _ (sort_by_sorted c_years (valid_rows d)))
    as [H _].
  apply (map_sorted (fun g g' => c_years (fst g) < c_years (fst g'))); [|exact H].
  intros g g' Hg. unfold years_lt. now rewrite !agg_years.
Qed.

Lemma Qabs_cases x : (0 <= x /\ Qabs x == x) \/ (x <= 0 /\ Qabs x == - x).
Proof.
  destruct (Qlt_le_dec x 0) as [H|H].
  - right. split; [lra|]. apply Qabs_neg. lra.
  - left. split; [exact H|]. now apply Qabs_pos.
Qed.

End CleanFacts.

Section JoinFacts.
Import Spread.
Local Open Scope Q_scope.

(** The exact join pairs the rows with equal [years], nothing else. *)
Lemma merge_inner_In a b j :
  In j (merge_inner a b) <->
  exists ra rb, In ra a /\ In rb b /\ c_years ra == c_years rb /\
                j = join_row ra (c_rate rb).
Proof.
  unfold merge_inner. rewrite in_flat_map. split.
  - intros (ra & Ha & Hj). apply in_map_iff in Hj as (rb & <- & Hb).
    apply filter_In in Hb as [Hb E]. apply Qeq_bool_iff in E.
    now exists ra, rb.
  - intros (ra & rb & Ha & Hb & E & ->). exists ra. split; [exact Ha|].
    apply in_map_iff. exists rb. split; [reflexivity|].
    apply filter_In. split; [exact Hb|]. now apply Qeq_bool_iff.
Qed.

Lemma sorted_snoc {A} (R : A -> A -> Prop) l x y :
  StronglySorted R (l ++ [x]) -> In y l -> R y x.
Proof.
  induction l as [|a l IH]; simpl; [tauto|].
  intros H. apply StronglySorted_inv in H as [Hs Ha].
  intros [<-|Hy]; [|now apply IH].
  rewrite List.Forall_forall in Ha. apply Ha, in_or_app. right. now left.
Qed.

(** The backward candidate: the reference row at or before [x] with the
    largest [years]. *)
Lemma backward_candidate b x r :
  StronglySorted (key_le c_years) b ->
  last (List.filter (fun rb => Qle_bool (c_years rb) x) b) = Some r ->
  In r b /\ c_years r <= x /\
  forall r', In r' b -> c_years r' <= x -> c_years r' <= c_years r.
Proof.
  intros Hs Hl.
  pose proof (filter_sorted _ (fun rb => Qle_bool (c_years rb) x) _ Hs) as Hf.
  apply last_Some in Hl as [l' Hl]. rewrite Hl in Hf.
  assert (Hin : In r (List.filter (fun rb => Qle_bool (c_years rb) x) b)).
  { rewrite Hl. apply in_or_app. right. now left. }
  apply filter_In in Hin as [Hin Hx]. apply Qle_bool_iff in Hx.
  split; [exact Hin|]. split; [exact Hx|].
  intros r' Hr' Hx'.
  assert (Hin' : In r' (l' ++ [r])).
  { rewrite <- Hl. apply filter_In. split; [exact Hr'|].
    now apply Qle_bool_iff. }
  apply in_app_or in Hin' as [Hin'|[<-|[]]]; [|lra].
  apply (sorted_snoc _ _ _ _ Hf Hin').
Qed.

Lemma backward_none b x :
  last (List.filter (fun rb => Qle_bool (c_years rb) x) b) = None ->
  forall r', In r' b -> x < c_years r'.
Proof.
  intros Hl r' Hr'.
  destruct (Qlt_le_dec x (c_years r')) as [L|L]; [exact L|exfalso].
  assert (Hin : In r' (List.filter (fun rb => Qle_bool (c_years rb) x) b)).
  { apply filter_In. split; [exact Hr'|]. now apply Qle_bool_iff. }
  destruct (List.filter _ b) as [|a l] using rev_ind; [destruct Hin|].
  rewrite last_snoc in Hl. discriminate.
Qed.

(** The forward candidate: the reference row at or after [x] with the
    smallest [years]. *)
Lemma forward_candidate b x r :
  StronglySorted (key_le c_years) b ->
  head (List.filter (fun rb => Qle_bool x (c_years rb)) b) = Some r ->
  In r b /\ x <= c_years r /\
  forall r', In r' b -> x <= c_years r' -> c_years r <= c_years r'.
Proof.
  intros Hs Hl.
  pose proof (filter_sorted _ (fun rb => Qle_bool x (c_years rb)) _ Hs) as Hf.
  apply head_Some in Hl as [l' Hl]. rewrite Hl in Hf.
  assert (Hin : In r (List.filter (fun rb => Qle_bool x (c_years rb)) b)).
  { rewrite Hl. now left. }
  apply filter_In in Hin as [Hin Hx]. apply Qle_bool_iff in Hx.
  split; [exact Hin|]. split; [exact Hx|].
  intros r' Hr' Hx'.
  assert (Hin' : In r' (r :: l')).
  { rewrite <- Hl. apply filter_In. split; [exact Hr'|].
    now apply Qle_bool_iff. }
  destruct Hin' as [<-|Hin']; [lra|].
  apply StronglySorted_inv in Hf as [_ Hf].
  rewrite List.Forall_forall in Hf. apply (Hf _ Hin').
Qed.

Lemma forward_none b x :
  head (List.filter (fun rb => Qle_bool x (c_years rb)) b) = None ->
  forall r', In r' b -> c_years r' < x.
Proof.
  intros Hl r' Hr'.
  destruct (Qlt_le_dec (c_years r') x) as [L|L]; [exact L|exfalso].
  assert (Hin : In r' (List.filter (fun rb => Qle_bool x (c_years rb)) b)).
  { apply filter_In. split; [exact Hr'|]. now apply Qle_bool_iff. }
  destruct (List.filter _ b); [destruct Hin|discriminate].
Qed.

Lemma Qle_bool_false a b : Qle_bool a b = false -> b < a.
Proof.
  intros H. destruct (Qlt_le_dec b a) as [L|L]; [exact L|].
  apply Qle_bool_iff in L. congruence.
Qed.

(** The nearest match: a reference row within the tolerance at the smallest
    distance from [x]; none when every reference row is farther than the
    tolerance. *)
Lemma asof_nearest_spec b x tol :
  StronglySorted (key_le c_years) b ->
  match asof_nearest b x tol with
  | Some r =>
      In r b /\ Qabs (x - c_years r) <= tol /\
      forall r', In r' b -> Qabs (x - c_years r) <= Qabs (x - c_years r')
  | None => forall r', In r' b -> tol < Qabs (x - c_years r')
  end.
Proof.
  intros Hs. unfold asof_nearest, asof_backward, asof_forward.
  assert (HB : match last (List.filter (fun rb => Qle_bool (c_years rb) x) b) with
               | Some r => In r b /\ c_years r <= x /\
                           forall r', In r' b -> c_years r' <= x ->
                                      c_years r' <= c_years r
               | None => forall r', In r' b -> x < c_years r'
               end).
  { destruct (last _) as [r|] eqn:E;
      [now apply backward_candidate | now apply backward_none]. }
  assert (HF : match head (List.filter (fun rb => Qle_bool x (c_years rb)) b) with
               | Some r => In r b /\ x <= c_years r /\
                           forall r', In r' b -> x <= c_years r' ->
                                      c_years r <= c_years r'
               | None => forall r', In r' b -> c_years r' < x
               end).
  { destruct (head _) as [r|] eqn:E;
      [now apply forward_candidate | now apply forward_none]. }
  assert (Hcase : forall r', c_years r' <= x \/ x <= c_years r')
    by (intros r'; destruct (Qlt_le_dec x (c_years r')); [right|left]; lra).
  destruct (last _) as [rb|]; destruct (head _) as [rf|];
    unfold mbind, option_bind; cbv beta iota.
  - destruct HB as (Bin & Bx & Bmax). destruct HF as (Fin & Fx & Fmin).
    destruct (Qle_bool (x - c_years rb) tol) eqn:Eb;
    destruct (Qle_bool (c_years rf - x) tol) eqn:Ef;
    try apply Qle_bool_iff in Eb; try apply Qle_bool_iff in Ef;
    try apply Qle_bool_false in Eb; try apply Qle_bool_false in Ef.
    + destruct (Qle_bool (x - c_years rb) (c_years rf - x)) eqn:En;
        [apply Qle_bool_iff in En | apply Qle_bool_false in En].
      * split; [exact Bin|].
        destruct (Qabs_cases (x - c_years rb)) as [[? Ha]|[? Ha]];
          (split; [lra|]); intros r' Hr';
          destruct (Qabs_cases (x - c_years r')) as [[? Ha']|[? Ha']];
          destruct (Hcase r') as [C|C];
          try pose proof (Bmax r' Hr' C); try pose proof (Fmin r' Hr' C); lra.
      * split; [exact Fin|].
        destruct (Qabs_cases (x - c_years rf)) as [[? Ha]|[? Ha]];
          (split; [lra|]); intros r' Hr';
          destruct (Qabs_cases (x - c_years r')) as [[? Ha']|[? Ha']];
          destruct (Hcase r') as [C|C];
          try pose proof (Bmax r' Hr' C); try pose proof (Fmin r' Hr' C); lra.
    + split; [exact Bin|].
      destruct (Qabs_cases (x - c_years rb)) as [[? Ha]|[? Ha]];
        (split; [lra|]); intros r' Hr';
        destruct (Qabs_cases (x - c_years r')) as [[? Ha']|[? Ha']];
        destruct (Hcase r') as [C|C];
        try pose proof (Bmax r' Hr' C); try pose proof (Fmin r' Hr' C); lra.
    + split; [exact Fin|].
      destruct (Qabs_cases (x - c_years rf)) as [[? Ha]|[? Ha]];
        (split; [lra|]); intros r' Hr';
        destruct (Qabs_cases (x - c_years r')) as [[? Ha']|[? Ha']];
        destruct (Hcase r') as [C|C];
        try pose proof (Bmax r' Hr' C); try pose proof (Fmin r' Hr' C); lra.
    + intros r' Hr'.
      destruct (Qabs_cases (x - c_years r')) as [[? Ha']|[? Ha']];
        destruct (Hcase r') as [C|C];
        try pose proof (Bmax r' Hr' C); try pose proof (Fmin r' Hr' C); lra.
  - destruct HB as (Bin & Bx & Bmax).
    destruct (Qle_bool (x - c_years rb) tol) eqn:Eb;
      [apply Qle_bool_iff in Eb | apply Qle_bool_false in Eb].
    + split; [exact Bin|].
      destruct (Qabs_cases (x - c_years rb)) as [[? Ha]|[? Ha]];
        (split; [lra|]); intros r' Hr'; pose proof (HF r' Hr');
        destruct (Qabs_cases (x - c_years r')) as [[? Ha']|[? Ha']];
        pose proof (Bmax r' Hr' ltac:(lra)); lra.
    + intros r' Hr'. pose proof (HF r' Hr').
      destruct (Qabs_cases (x - c_years r')) as [[? Ha']|[? Ha']];
        pose proof (Bmax r' Hr' ltac:(lra)); lra.
  - destruct HF as (Fin & Fx & Fmin).
    destruct (Qle_bool (c_years rf - x) tol) eqn:Ef;
      [apply Qle_bool_iff in Ef | apply Qle_bool_false in Ef].
    + split; [exact Fin|].
      destruct (Qabs_cases (x - c_years rf)) as [[? Ha]|[? Ha]];
        (split; [lra|]); intros r' Hr'; pose proof (HB r' Hr');
        destruct (Qabs_cases (x - c_years r')) as [[? Ha']|[? Ha']];
        pose proof (Fmin r' Hr' ltac:(lra)); lra.
    + intros r' Hr'. pose proof (HB r' Hr').
      destruct (Qabs_cases (x - c_years r')) as [[? Ha']|[? Ha']];
        pose proof (Fmin r' Hr' ltac:(lra)); lra.
  - intros r' Hr'. pose proof (HB r' Hr'). pose proof (HF r' Hr'). lra.
Qed.

End JoinFacts.

Section AlignFacts.
Import Spread.
Local Open Scope Q_scope.

Lemma omap_length {A B} (f : A -> option B) l :
  (length (omap f l) <= length l)%nat.
Proof.
  unfold omap. induction l as [|a l IH]; simpl; [lia|].
  destruct (f a); simpl; lia.
Qed.

Lemma omap_In {A B} (f : A -> option B) l y :
  In y (omap f l) <-> exists x, In x l /\ f x = Some y.
Proof.
  unfold omap. induction l as [|a l IH]; simpl.
  - split; [tauto|]. now intros (x & [] & _).
  - destruct (f a) as [b|] eqn:E; simpl; rewrite IH; split.
    + intros [<-|(x & Hx & Ex)]; [exists a; auto|exists x; auto].
    + intros (x & [<-|Hx] & Ex); [left; congruence|right; eauto].
    + intros (x & Hx & Ex). exists x. auto.
    + intros (x & [<-|Hx] & Ex); [congruence|eauto].
Qed.

(** The fallback join, for a tolerance that is not negative: the rows of the
    target, in ascending [years], each with its nearest reference row. *)
Lemma nearest_join_Ok a b tol :
  0 <= tol ->
  nearest_join a b tol
  = Ok (omap (fun ra =>
                join_row ra <$>
                  (c_rate <$> asof_nearest (sort_by c_years b) (c_years ra) tol))
          (sort_by c_years a)).
Proof.
  intros Ht. unfold nearest_join, merge_asof_nearest.
  apply Qle_bool_iff in Ht. rewrite Ht. simpl. f_equal.
  unfold dropna_ref, omap. induction (sort_by c_years a) as [|ra l IH];
    [reflexivity|].
  simpl. rewrite IH. reflexivity.
Qed.

Lemma nearest_join_In a b tol j :
  0 <= tol ->
  In j (omap (fun ra =>
                join_row ra <$>
                  (c_rate <$> asof_nearest (sort_by c_years b) (c_years ra) tol))
          (sort_by c_years a)) <->
  exists ra rb, In ra a /\
    asof_nearest (sort_by c_years b) (c_years ra) tol = Some rb /\
    j = join_row ra (c_rate rb).
Proof.
  intros Ht. rewrite omap_In. split.
  - intros (ra & Ha & E). apply sort_by_In in Ha.
    destruct (asof_nearest _ _ _) as [rb|] eqn:En; [|discriminate].
    injection E as <-. now exists ra, rb.
  - intros (ra & rb & Ha & E & ->). exists ra.
    split; [now apply sort_by_In|]. now rewrite E.
Qed.

Lemma needs_fallback_spec la lb lm :
  needs_fallback la lb lm = true <->
  lm = 0%nat \/
  (Z.of_nat lm < Z.max 2 (3 * Z.of_nat (Nat.min la lb) / 10))%Z.
Proof.
  unfold needs_fallback. rewrite orb_true_iff, Nat.eqb_eq, Z.ltb_lt.
  reflexivity.
Qed.

(** C5 (as stated, refuted): target maturities 1, 2 and 3.0000001 against
    reference maturities 1, 2 and 3.  The third pair is equal after rounding
    to 1e-6, but the exact join finds two rows, which is enough to skip the
    fallback, and the third target row is lost. *)
Lemma exact_join_not_rounded :
  round6 (30000001 # 10000000) == round6 3 /\
  exists out,
    add_spread_vs_ref_par
      [quoted 1 1; quoted 2 1; quoted (30000001 # 10000000) 1]
      [quoted 1 0; quoted 2 0; quoted 3 0] "X" (15 # 100) = Ok out /\
    List.map sp_years out = [1; 2].
Proof.
  split; [vm_compute; reflexivity|].
  eexists. split; [vm_compute; reflexivity|]. reflexivity.
Qed.

(** C5 (amended): the exact join pairs the rows whose years are equal (no
    rounding).  The fallback runs exactly when the exact join has no row or
    fewer than max(2, floor(0.3 * min(len a, len b))) rows; otherwise the
    exact join is the result.  In the fallback, for a tolerance that is not
    negative, every row of the result is a target row with a reference row
    that is within the tolerance and at the smallest distance of all
    reference rows, and every target row with a reference row within the
    tolerance has a row in the result; the others are dropped.  Target
    years 2, 5, 10 against reference years 2.05, 5.1, 9.9 give the three
    pairs at tolerance 0.15 and nothing at tolerance 0.02. *)
Theorem spread_alignment a b tol :
  0 <= tol ->
  (forall j, In j (merge_inner a b) <->
     exists ra rb, In ra a /\ In rb b /\ c_years ra == c_years rb /\
                   j = join_row ra (c_rate rb)) /\
  (needs_fallback (length a) (length b) (length (merge_inner a b)) = true <->
   length (merge_inner a b) = 0%nat \/
   (Z.of_nat (length (merge_inner a b))
    < Z.max 2 (3 * Z.of_nat (Nat.min (length a) (length b)) / 10))%Z) /\
  (needs_fallback (length a) (length b) (length (merge_inner a b)) = false ->
   align a b tol = Ok (merge_inner a b)) /\
  (needs_fallback (length a) (length b) (length (merge_inner a b)) = true ->
   exists m,
     align a b tol = Ok m /\ (length m <= length a)%nat /\
     (forall j, In j m ->
        exists ra rb, In ra a /\ In rb b /\ j = join_row ra (c_rate rb) /\
          Qabs (c_years ra - c_years rb) <= tol /\
          forall rb', In rb' b ->
            Qabs (c_years ra - c_years rb) <= Qabs (c_years ra - c_years rb')) /\
     (forall ra rb, In ra a -> In rb b ->
        Qabs (c_years ra - c_years rb) <= tol ->
        exists rb', In rb' b /\ In (join_row ra (c_rate rb')) m /\
          Qabs (c_years ra - c_years rb') <= Qabs (c_years ra - c_years rb))) /\
  (forall t1 t2 t3 r1 r2 r3 u1 u2 u3 s1 s2 s3,
     align [mkRow t1 2 r1; mkRow t2 5 r2; mkRow t3 10 r3]
           [mkRow u1 (205 # 100) s1; mkRow u2 (51 # 10) s2;
            mkRow u3 (99 # 10) s3] (15 # 100)
     = Ok [mkJoined t1 2 r1 s1; mkJoined t2 5 r2 s2; mkJoined t3 10 r3 s3] /\
     align [mkRow t1 2 r1; mkRow t2 5 r2; mkRow t3 10 r3]
           [mkRow u1 (205 # 100) s1; mkRow u2 (51 # 10) s2;
            mkRow u3 (99 # 10) s3] (2 # 100)
     = Ok []) /\
  (forall df_target df_ref country,
     clean_curve df_target = a -> clean_curve df_ref = b ->
     a <> [] -> b <> [] ->
     add_spread_vs_ref_par df_target df_ref country tol
     = m ← align a b tol; Ok (sort_by sp_years (List.map (spread_of country) m))).
Proof.
  intros Ht.
  split; [intros j; apply merge_inner_In|].
  split; [apply needs_fallback_spec|].
  split; [intros H; unfold align; now rewrite H|].
  split; [|split].
  - intros H. unfold align. rewrite H, (nearest_join_Ok a b tol Ht).
    eexists. split; [reflexivity|].
    split; [rewrite <- (sort_by_length c_years a); apply omap_length|].
    pose proof (sort_by_sorted c_years b) as Hs.
    split.
    + intros j Hj. apply (nearest_join_In a b tol j Ht) in Hj
        as (ra & rb & Ha & E & ->).
      pose proof (asof_nearest_spec _ (c_years ra) tol Hs) as S.
      rewrite E in S. destruct S as (Hin & Htol & Hmin).
      exists ra, rb. split; [exact Ha|].
      split; [now apply sort_by_In in Hin|]. split; [reflexivity|].
      split; [exact Htol|]. intros rb' Hb'. apply Hmin.
      now apply sort_by_In.
    + intros ra rb Ha Hb Hd.
      pose proof (asof_nearest_spec _ (c_years ra) tol Hs) as S.
      destruct (asof_nearest _ _ _) as [rb'|] eqn:E.
      * destruct S as (Hin & Htol & Hmin). exists rb'.
        split; [now apply sort_by_In in Hin|].
        split; [|apply Hmin; now apply sort_by_In].
        apply (nearest_join_In a b tol _ Ht). now exists ra, rb'.
      * exfalso. assert (Hlt : tol < Qabs (c_years ra - c_years rb))
          by (apply S; now apply sort_by_In).
        lra.
  - intros. split; vm_compute; reflexivity.
  - intros dt dr country <- <- Ha Hb. unfold add_spread_vs_ref_par.
    destruct (clean_curve dt); [contradiction|].
    destruct (clean_curve dr); [contradiction|]. reflexivity.
Qed.

Lemma spread_alignment_witness :
  exists m,
    align [mkRow None 2 3; mkRow None 5 4] [mkRow None (21 # 10) 1] (15 # 100)
    = Ok m /\
    forall j, In j m -> j_ref j = 1.
Proof.
  destruct (spread_alignment [mkRow None 2 3; mkRow None 5 4]
              [mkRow None (21 # 10) 1] (15 # 100))
    as (_ & _ & _ & Hfb & _); [unfold Qle; simpl; lia|].
  destruct Hfb as (m & Hm & _ & Hin & _); [vm_compute; reflexivity|].
  exists m. split; [exact Hm|].
  intros j Hj. destruct (Hin j Hj) as (ra & rb & _ & [<-|[]] & -> & _).
  reflexivity.
Defined.

End AlignFacts.

Section InterpFacts.
Import Spread.
Local Open Scope Q_scope.

Lemma sorted_app_lt {A} (R : A -> A -> Prop) l1 u l2 q :
  StronglySorted R (l1 ++ u :: l2) -> In q l1 -> R q u.
Proof.
  induction l1 as [|a l1 IH]; simpl; [tauto|].
  intros H. apply StronglySorted_inv in H as [Hs Ha].
  intros [<-|Hq]; [|now apply IH].
  rewrite List.Forall_forall in Ha. apply Ha, in_or_app. right. now left.
Qed.

Lemma sorted_hd_le (p : Q * Q) l l1 u l2 :
  StronglySorted (fun p q => fst p < fst q) (p :: l) ->
  p :: l = l1 ++ u :: l2 -> fst p <= fst u.
Proof.
  intros Hs E. destruct l1 as [|a l1]; simpl in E; injection E as -> E.
  - lra.
  - rewrite E in Hs. apply StronglySorted_inv in Hs as [_ Hs].
    rewrite List.Forall_forall in Hs.
    assert (fst a < fst u); [|lra]. apply Hs, in_or_app. right. now left.
Qed.

(** On a knot the tabulated value is returned. *)
Lemma interp_from_knot x l1 : forall p l u l2,
  StronglySorted (fun p q => fst p < fst q) (p :: l) ->
  p :: l = l1 ++ u :: l2 -> fst u == x ->
  interp_from x p l = snd u.
Proof.
  induction l1 as [|a l1 IH]; intros p l u l2 Hs E Hx; simpl in E;
    injection E as -> E.
  - subst l. destruct l2 as [|w l2]; [reflexivity|]. simpl.
    apply StronglySorted_inv in Hs as [_ Hs].
    apply Forall_inv in Hs.
    destruct (Qle_bool (fst w) x) eqn:Ew.
    + apply Qle_bool_iff in Ew. lra.
    + apply Qeq_bool_iff in Hx. now rewrite Hx.
  - destruct l as [|p1 l']; [now destruct l1|]. simpl.
    apply StronglySorted_inv in Hs as [Hs _].
    pose proof (sorted_hd_le _ _ _ _ _ Hs E) as Hle.
    assert (Ep : Qle_bool (fst p1) x = true) by (apply Qle_bool_iff; lra).
    rewrite Ep. now apply (IH p1 l' u l2).
Qed.

(** Strictly between two neighbouring knots the value is on the chord. *)
Lemma interp_from_inside x l1 : forall p l u w l2,
  StronglySorted (fun p q => fst p < fst q) (p :: l) ->
  p :: l = l1 ++ u :: w :: l2 -> fst u < x -> x < fst w ->
  interp_from x p l
  = (snd w - snd u) / (fst w - fst u) * (x - fst u) + snd u.
Proof.
  induction l1 as [|a l1 IH]; intros p l u w l2 Hs E Hu Hw; simpl in E;
    injection E as -> E.
  - subst l. simpl.
    destruct (Qle_bool (fst w) x) eqn:Ew;
      [apply Qle_bool_iff in Ew; lra|].
    destruct (Qeq_bool (fst u) x) eqn:Eu;
      [apply Qeq_bool_iff in Eu; lra|]. reflexivity.
  - destruct l as [|p1 l']; [now destruct l1|]. simpl.
    apply StronglySorted_inv in Hs as [Hs _].
    pose proof (sorted_hd_le _ _ _ _ _ Hs E) as Hle.
    assert (Ep : Qle_bool (fst p1) x = true) by (apply Qle_bool_iff; lra).
    rewrite Ep. now apply (IH p1 l' u w l2).
Qed.

Lemma last_cons_default {A} (l : list A) : forall a p,
  List.last (a :: l) p = List.last l a.
Proof.
  induction l as [|b l IH]; intros a p; [reflexivity|].
  change (List.last (a :: b :: l) p) with (List.last (b :: l) p).
  now rewrite (IH b p), (IH b a).
Qed.

Lemma sorted_last_le (p : Q * Q) l q :
  StronglySorted (fun p q => fst p < fst q) (p :: l) ->
  In q (p :: l) -> fst q <= fst (List.last l p).
Proof.
  revert p q. induction l as [|a l IH]; intros p q Hs Hq.
  - destruct Hq as [<-|[]]. simpl. lra.
  - apply StronglySorted_inv in Hs as [Hs Hp].
    rewrite last_cons_default. destruct Hq as [<-|Hq].
    + apply Forall_inv in Hp.
      pose proof (IH a a Hs (or_introl eq_refl)). lra.
    + now apply IH.
Qed.

End InterpFacts.

Section AswFacts.
Import Spread.
Local Open Scope Q_scope.

Lemma knots_sorted b :
  StronglySorted years_lt b ->
  StronglySorted (fun p q : Q * Q => fst p < fst q)
    (List.map (fun r => (c_years r, c_rate r)) b).
Proof. apply map_sorted. auto. Qed.

(** At or before the first maturity the first swap rate is held. *)
Lemma swap_interp_left b r0 l x :
  StronglySorted years_lt b -> b = r0 :: l -> x <= c_years r0 ->
  swap_interp b x = c_rate r0.
Proof.
  intros Hs -> Hx. apply knots_sorted in Hs.
  unfold swap_interp, np_interp. simpl in *.
  destruct (Qle_bool (c_years r0) x) eqn:E1; [|reflexivity].
  apply Qle_bool_iff in E1. simpl.
  pose proof (sorted_last_le _ _ _ Hs (or_introl eq_refl)) as Hl.
  simpl in Hl.
  destruct (Qle_bool x _) eqn:E2; simpl.
  - apply (interp_from_knot x [] _ _ (c_years r0, c_rate r0)
             (List.map (fun r => (c_years r, c_rate r)) l) Hs eq_refl).
    simpl. lra.
  - apply Qle_bool_false in E2. lra.
Qed.

(** At or after the last maturity the last swap rate is held. *)
Lemma swap_interp_right b l rn x :
  StronglySorted years_lt b -> b = l ++ [rn] -> c_years rn <= x ->
  swap_interp b x = c_rate rn.
Proof.
  intros Hs -> Hx. apply knots_sorted in Hs.
  unfold swap_interp. set (f := fun r => (c_years r, c_rate r)) in *.
  rewrite map_app in *. change (List.map f [rn]) with [f rn] in *.
  rewrite last_last.
  remember (List.map f l ++ [f rn]) as pts eqn:E.
  destruct pts as [|p l']; [now destruct (List.map f l)|].
  unfold np_interp.
  pose proof (sorted_hd_le _ _ _ _ _ Hs E) as Hp. simpl in Hp.
  assert (E1 : Qle_bool (fst p) x = true) by (apply Qle_bool_iff; lra).
  rewrite E1. simpl.
  assert (El : List.last l' p = f rn).
  { rewrite <- (last_cons_default l' p (0, 0)), E. apply last_last. }
  rewrite El. simpl.
  destruct (Qle_bool x (c_years rn)) eqn:E2; simpl; [|reflexivity].
  apply Qle_bool_iff in E2.
  rewrite (interp_from_knot x _ _ _ _ _ Hs E); [reflexivity|].
  simpl. lra.
Qed.

(** Between two neighbouring maturities the value is on the chord. *)
Lemma swap_interp_linear b l1 u w l2 x :
  StronglySorted years_lt b -> b = l1 ++ u :: w :: l2 ->
  c_years u <= x <= c_years w ->
  swap_interp b x
  == c_rate u + (c_rate w - c_rate u) * (x - c_years u)
                / (c_years w - c_years u).
Proof.
  intros Hb -> [Hu Hw].
  assert (Huw : c_years u < c_years w).
  { apply sorted_app_r in Hb. apply StronglySorted_inv in Hb as [_ Hb].
    apply Forall_inv in Hb. exact Hb. }
  pose proof (knots_sorted _ Hb) as Hs.
  unfold swap_interp. set (f := fun r => (c_years r, c_rate r)) in *.
  rewrite map_app in *.
  change (List.map f (u :: w :: l2)) with (f u :: f w :: List.map f l2) in *.
  remember (List.map f l1 ++ f u :: f w :: List.map f l2) as pts eqn:E.
  destruct pts as [|p l']; [now destruct (List.map f l1)|].
  unfold np_interp.
  pose proof (sorted_hd_le _ _ _ _ _ Hs E) as Hp. simpl in Hp.
  assert (E1 : Qle_bool (fst p) x = true) by (apply Qle_bool_iff; lra).
  rewrite E1. simpl.
  assert (Hin : In (f w) (p :: l')).
  { rewrite E. apply in_or_app. right. right. now left. }
  pose proof (sorted_last_le _ _ _ Hs Hin) as Hl. simpl in Hl.
  assert (E2 : Qle_bool x (fst (List.last l' p)) = true)
    by (apply Qle_bool_iff; lra).
  rewrite E2. simpl.
  destruct (Qeq_dec (c_years u) x) as [Xu|Xu].
  - rewrite (interp_from_knot x _ _ _ _ _ Hs E Xu). simpl.
    rewrite <- Xu. field. lra.
  - destruct (Qeq_dec (c_years w) x) as [Xw|Xw].
    + assert (E' : p :: l' = (List.map f l1 ++ [f u]) ++ f w :: List.map f l2)
        by (now rewrite <- app_assoc).
      rewrite (interp_from_knot x _ _ _ _ _ Hs E' Xw). simpl.
      rewrite <- Xw. field. lra.
    + rewrite (interp_from_inside x _ _ _ _ _ _ Hs E); simpl; [|lra|lra].
      field. lra.
Qed.

Lemma spread_rows_sorted country (g : crow -> Q) a :
  StronglySorted years_lt a ->
  StronglySorted (key_le sp_years)
    (List.map (fun ra => mkSpread (c_tenor ra) (c_years ra) (g ra) country) a).
Proof.
  apply map_sorted. intros r s H. unfold key_le, years_lt in *. simpl. lra.
Qed.

(** C6: with at least two points on the cleaned swap curve, the result has
    one row per maturity of the cleaned bond curve (whose maturities are
    distinct), in order, with spread_bp = (bond rate - interpolated swap
    rate) * 100.  The interpolated rate is the first swap rate at or before
    the first swap maturity, the last one at or after the last, and lies on
    the chord between two neighbouring swap points.  If every bond rate is
    above the interpolated rate, every spread_bp is positive. *)
Theorem asw_spread_interpolates df_bonds df_swaps country :
  (2 <= length (clean_curve df_swaps))%nat ->
  asw_spread df_bonds df_swaps country
  = List.map (fun ra =>
                mkSpread (c_tenor ra) (c_years ra)
                  ((c_rate ra - swap_interp (clean_curve df_swaps) (c_years ra))
                   * 100) country)
      (clean_curve df_bonds) /\
  StronglySorted years_lt (clean_curve df_bonds) /\
  (forall x r0 l, clean_curve df_swaps = r0 :: l -> x <= c_years r0 ->
     swap_interp (clean_curve df_swaps) x = c_rate r0) /\
  (forall x l rn, clean_curve df_swaps = l ++ [rn] -> c_years rn <= x ->
     swap_interp (clean_curve df_swaps) x = c_rate rn) /\
  (forall x l1 u w l2, clean_curve df_swaps = l1 ++ u :: w :: l2 ->
     c_years u <= x <= c_years w ->
     c_years u < c_years w /\
     swap_interp (clean_curve df_swaps) x
     == c_rate u + (c_rate w - c_rate u) * (x - c_years u)
                   / (c_years w - c_years u)) /\
  ((forall ra, In ra (clean_curve df_bonds) ->
      swap_interp (clean_curve df_swaps) (c_years ra) < c_rate ra) ->
   forall r, In r (asw_spread df_bonds df_swaps country) -> 0 < sp_spread_bp r).
Proof.
  intros Hb.
  pose proof (clean_curve_sorted df_bonds) as Sa.
  pose proof (clean_curve_sorted df_swaps) as Sb.
  assert (Heq : asw_spread df_bonds df_swaps country
    = List.map (fun ra =>
                  mkSpread (c_tenor ra) (c_years ra)
                    ((c_rate ra - swap_interp (clean_curve df_swaps) (c_years ra))
                     * 100) country)
        (clean_curve df_bonds)).
  { unfold asw_spread.
    assert (E : (length (clean_curve df_swaps) <? 2)%nat = false)
      by (apply Nat.ltb_ge; exact Hb).
    rewrite E, orb_false_r.
    destruct (length (clean_curve df_bonds) =? 0)%nat eqn:Ea.
    - apply Nat.eqb_eq in Ea.
      now destruct (clean_curve df_bonds).
    - apply sort_by_id, spread_rows_sorted, Sa. }
  split; [exact Heq|]. split; [exact Sa|].
  split; [intros x r0 l E Hx; now apply (swap_interp_left _ r0 l)|].
  split; [intros x l rn E Hx; now apply (swap_interp_right _ l rn)|].
  split.
  - intros x l1 u w l2 E Hx. split.
    + rewrite E in Sb. apply sorted_app_r in Sb.
      apply StronglySorted_inv in Sb as [_ Sb]. apply Forall_inv in Sb.
      exact Sb.
    + now apply (swap_interp_linear _ l1 u w l2).
  - intros Hpos r Hr. rewrite Heq in Hr.
    apply in_map_iff in Hr as (ra & <- & Hra). simpl.
    pose proof (Hpos ra Hra). lra.
Qed.

Lemma asw_spread_interpolates_witness :
  List.map sp_years
    (asw_spread [quoted 1 3; quoted 2 4; quoted 7 5]
                [quoted 1 1; quoted 3 2; quoted 5 4] "X")
  = [1; 2; 7].
Proof.
  destruct (asw_spread_interpolates [quoted 1 3; quoted 2 4; quoted 7 5]
              [quoted 1 1; quoted 3 2; quoted 5 4] "X") as [H _].
  - vm_compute. lia.
  - rewrite H. vm_compute. reflexivity.
Defined.

End AswFacts.

(** * Further properties *)

(** ** The bootstrappers at their edges *)

Section BootstrapEdges.
Import Bootstrap.
Local Open Scope Q_scope.

Lemma round_half_even_comp x y : x == y -> round_half_even x = round_half_even y.
Proof.
  intros H. unfold round_half_even. rewrite (Qfloor_comp _ _ H).
  assert (E : Qcompare (x - inject_Z (Qfloor y)) (1 # 2)
              = Qcompare (y - inject_Z (Qfloor y)) (1 # 2))
    by (apply Qcompare_comp; [now rewrite H | reflexivity]).
  now rewrite E.
Qed.

Lemma period_of_years freq N :
  (0 < freq)%Z -> period freq (inject_Z N / inject_Z freq) = N.
Proof.
  intros Hf. unfold period. rewrite <- (round_half_even_Z N) at 2.
  apply round_half_even_comp. field.
  intros E. unfold Qeq in E. simpl in E. lia.
Qed.

Lemma period_zero_frequency t : period 0 t = 0%Z.
Proof.
  unfold period. change 0%Z with (round_half_even (inject_Z 0)) at 2.
  apply round_half_even_comp. simpl. ring.
Qed.

Lemma points_zero_frequency d : points 0 d = [].
Proof.
  unfold points. induction (sort_by fst (dropna d)) as [|r l IH];
    [reflexivity|].
  simpl. rewrite period_zero_frequency. simpl. exact IH.
Qed.

Lemma rows_of_loop solve freq comp pts DF rows out :
  (0 < freq)%Z ->
  StronglySorted Z.lt (List.map fst pts) ->
  Forall2 (emitted solve freq comp DF) pts rows ->
  emit rows = Ok out ->
  List.map (fun r => period freq (zr_years r)) out = List.map fst pts.
Proof.
  intros Hf Hs HF He.
  pose proof (emitted_sorted _ _ _ _ _ _ Hf Hs HF) as Hsorted.
  apply emit_inv in He. rewrite (sort_by_id _ _ Hsorted) in He. subst out.
  clear Hs Hsorted. induction HF as [|p r pts rows Hpr HF IH]; [reflexivity|].
  simpl. rewrite IH. f_equal.
  rewrite (emitted_years _ _ _ _ _ _ Hpr). now apply period_of_years.
Qed.

(** X1: with a positive frequency, every maturity either bootstrapper emits
    maps back to the index it was computed from: round(years * freq) over
    the rows of the result gives the indices of the kept points, in
    order. *)
Theorem bootstrap_grid_round_trip d freq comp out :
  (0 < freq)%Z ->
  bootstrap_zero_from_par d freq comp = Ok out \/
  (d <> [] /\ bootstrap_zero_from_par_swaps d freq comp = Ok out) ->
  List.map (fun r => period freq (zr_years r)) out
  = List.map fst (points freq d).
Proof.
  intros Hf [H|[Hd H]].
  - unfold bootstrap_zero_from_par in H.
    apply bind_Ok in H as ([DF rows] & Hl & He). simpl in He.
    destruct (bond_loop_spec _ _ _ _ _ (points_sorted freq d Hf) Hl)
      as [_ HF].
    exact (rows_of_loop _ _ _ _ _ _ _ Hf (points_sorted freq d Hf) HF He).
  - rewrite (swaps_nonempty _ _ _ Hd) in H.
    apply bind_Ok in H as ([DF rows] & Hl & He). simpl in He.
    destruct (swap_loop_spec _ _ _ _ _ (points_sorted freq d Hf) Hl)
      as [_ HF].
    exact (rows_of_loop _ _ _ _ _ _ _ Hf (points_sorted freq d Hf) HF He).
Qed.

Lemma bootstrap_grid_round_trip_witness :
  exists out,
    bootstrap_zero_from_par [quoted (1 # 2) 2; quoted (3 # 2) 3] 2 "ann"
    = Ok out /\
    List.map (fun r => period 2 (zr_years r)) out = [1%Z; 3%Z].
Proof.
  destruct (bootstrap_zero_from_par [quoted (1 # 2) 2; quoted (3 # 2) 3] 2 "ann")
    as [out|e] eqn:E; [|exfalso; vm_compute in E; discriminate].
  exists out. split; [reflexivity|].
  rewrite (bootstrap_grid_round_trip
             [quoted (1 # 2) 2; quoted (3 # 2) 3] 2 "ann" out);
    [vm_compute; reflexivity | lia | now left].
Defined.

(** X2: when no point is kept (no valid row, or every index rounds to 0 or
    below) the bond bootstrapper raises KeyError, from sorting an empty
    frame on a column it does not have; the swap variant returns an empty
    result for an empty input and raises the same KeyError for a non-empty
    input without a kept point. *)
Theorem bootstrap_without_points d freq comp :
  points freq d = [] ->
  bootstrap_zero_from_par d freq comp = Raise KeyError /\
  (d = [] -> bootstrap_zero_from_par_swaps d freq comp = Ok []) /\
  (d <> [] -> freq <> 0%Z ->
   bootstrap_zero_from_par_swaps d freq comp = Raise KeyError).
Proof.
  intros Hp. split; [|split].
  - unfold bootstrap_zero_from_par. now rewrite Hp.
  - now intros ->.
  - intros Hd Hf. rewrite (swaps_nonempty _ _ _ Hd), Hp. unfold swap_loop.
    rewrite py_div_Ok; [reflexivity|].
    intros E. unfold Qeq in E. simpl in E. lia.
Qed.

Lemma bootstrap_without_points_witness :
  bootstrap_zero_from_par [quoted (1 # 10) 3; mkQuote None None (Some 2)] 2 "cont"
  = Raise KeyError.
Proof.
  destruct (bootstrap_without_points
              [quoted (1 # 10) 3; mkQuote None None (Some 2)] 2 "cont")
    as [H _]; [vm_compute; reflexivity | exact H].
Defined.

(** X3: with frequency 0 every index is 0, no point is kept, and the bond
    bootstrapper raises KeyError on every input; the swap variant divides
    1 by the frequency before its loop and raises ZeroDivisionError on
    every non-empty input. *)
Theorem bootstrap_zero_frequency d comp :
  bootstrap_zero_from_par d 0 comp = Raise KeyError /\
  (d <> [] -> bootstrap_zero_from_par_swaps d 0 comp = Raise ZeroDivisionError).
Proof.
  split.
  - unfold bootstrap_zero_from_par. now rewrite points_zero_frequency.
  - intros Hd. now rewrite (swaps_nonempty _ _ _ Hd).
Qed.

Lemma weighted_sum_empty w N : weighted_sum w ∅ N = 0.
Proof.
  unfold weighted_sum. induction (range 1 N) as [|k l IH]; [reflexivity|].
  simpl. rewrite lookup_empty. exact IH.
Qed.

Lemma sorted_head_least N l k :
  StronglySorted Z.lt (N :: l) -> In k (N :: l) -> (N <= k)%Z.
Proof.
  intros Hs [<-|Hk]; [lia|].
  apply StronglySorted_inv in Hs as [_ Hs].
  rewrite List.Forall_forall in Hs. apply Hs in Hk. lia.
Qed.

(** X4: the first kept point is priced as a one-period bond whatever its
    index: the coupons at the missing earlier indices are skipped, the
    coupon sum is 0 and the stored factor is 100 / (100 + c), clamped. *)
Theorem first_factor_ignores_index d freq comp N y rest DF rows :
  (0 < freq)%Z ->
  points freq d = (N, y) :: rest ->
  bond_loop freq comp (points freq d) = Ok (DF, rows) ->
  exists c,
    coupon freq y = Ok c /\ ~ 100 + c == 0 /\
    weighted_sum c DF N = 0 /\
    DF !! N = Some (clamp ((100 - 0) / (100 + c))).
Proof.
  intros Hf Hp Hl. pose proof (points_sorted freq d Hf) as Hs.
  destruct (bond_loop_at _ _ _ _ _ N y Hs Hl) as (v & Hv & Hsolve);
    [rewrite Hp; now left|].
  unfold bond_solve in Hsolve. simpl in Hsolve.
  apply bind_Ok in Hsolve as (c & Hc & Hd).
  assert (Hw : weighted_sum c DF N = 0).
  { rewrite <- (weighted_sum_empty c N). apply weighted_sum_local.
    intros k Hk. rewrite lookup_empty.
    destruct (DF !! k) as [w|] eqn:E; [exfalso|reflexivity].
    pose proof (bond_loop_keys _ _ _ _ _ _ _ Hs Hl E) as Hin.
    rewrite Hp in Hs, Hin. simpl in Hs, Hin.
    pose proof (sorted_head_least _ _ _ Hs Hin). lia. }
  exists c. split; [exact Hc|].
  apply bond_DF_closed in Hd as [[H1 _]|(_ & Hne & ->)].
  - rewrite Hw in H1. exfalso. lra.
  - rewrite Hw in Hv. now split.
Qed.

Lemma first_factor_ignores_index_witness :
  exists DF rows,
    bond_loop 2 "cont" (points 2 [quoted 10 5]) = Ok (DF, rows) /\
    DF !! 20%Z = Some (clamp ((100 - 0) / (100 + (5 / 100 / 2 * 100)))).
Proof.
  destruct (bond_loop 2 "cont" (points 2 [quoted 10 5]))
    as [[DF rows]|e] eqn:E; [|exfalso; vm_compute in E; discriminate].
  exists DF, rows. split; [reflexivity|].
  destruct (first_factor_ignores_index [quoted 10 5] 2 "cont" 20 5 [] DF rows)
    as (c & Hc & _ & _ & Hv); [lia|vm_compute; reflexivity|exact E|].
  rewrite coupon_Ok in Hc by lia. injection Hc as <-. exact Hv.
Defined.

Lemma Qpower_S q k :
  ~ q == 0 -> q ^ Z.of_nat (S k) == q ^ Z.of_nat k * q.
Proof.
  intros Hq. rewrite Nat2Z.inj_succ. unfold Z.succ.
  rewrite Qpower_plus by exact Hq. reflexivity.
Qed.

Lemma Qpower_antitone q : 0 < q -> q <= 1 ->
  forall k m, (k <= m)%nat -> q ^ Z.of_nat m <= q ^ Z.of_nat k.
Proof.
  intros H0 H1 k m Hkm. induction Hkm as [|m Hkm IH]; [lra|].
  rewrite Qpower_S by lra.
  pose proof (Qpower_0_lt q (Z.of_nat m) H0). nra.
Qed.

(** X5: a flat par curve on the complete grid N = 1 .. n with a yield that
    is not negative bootstraps to the flat discount factors
    DF[k] = (1 + y / (100 freq))^(-k), as long as the last of them is above
    1e-11. *)
Theorem flat_curve_factors d freq comp n y DF rows :
  (0 < freq)%Z -> 0 <= y ->
  List.map fst (points freq d) = range 1 (Z.of_nat n + 1) ->
  (forall N y', In (N, y') (points freq d) -> y' = y) ->
  q1e_9 < 100 * (1 / (1 + y / 100 / inject_Z freq)) ^ Z.of_nat n ->
  bond_loop freq comp (points freq d) = Ok (DF, rows) ->
  forall k, (1 <= k <= n)%nat ->
    exists v, DF !! Z.of_nat k = Some v /\
              v == (1 / (1 + y / 100 / inject_Z freq)) ^ Z.of_nat k.
Proof.
  intros Hf Hy Hgrid Hflat Hfloor Hl.
  pose proof (points_sorted freq d Hf) as Hs.
  assert (Hfq : 0 < inject_Z freq) by (unfold Qlt; simpl; lia).
  set (c := y / 100 / inject_Z freq * 100).
  set (q := 1 / (1 + y / 100 / inject_Z freq)) in *.
  assert (Hc : 0 <= c).
  { unfold c. apply Qmult_le_0_compat; [|lra].
    apply Qle_shift_div_l; [exact Hfq|].
    apply Qle_shift_div_l; lra. }
  assert (Hd : 0 < 1 + y / 100 / inject_Z freq).
  { assert (0 <= y / 100 / inject_Z freq); [|lra].
    apply Qle_shift_div_l; [exact Hfq|]. apply Qle_shift_div_l; lra. }
  assert (Hcq : (100 + c) * q == 100) by (unfold c, q; field; lra).
  assert (Hq0 : 0 < q) by (unfold q; apply Qlt_shift_div_l; lra).
  assert (Hq1 : q <= 1) by nra.
  assert (Hat : forall k, (1 <= k <= n)%nat ->
            exists v, DF !! Z.of_nat k = Some v /\
                      bond_DF c DF (Z.of_nat k) = Ok v).
  { intros k Hk.
    assert (Hin : In (Z.of_nat k) (List.map fst (points freq d)))
      by (rewrite Hgrid; apply In_range; lia).
    apply in_map_iff in Hin as ([k' y'] & Ek & Hin). simpl in Ek. subst k'.
    pose proof (Hflat _ _ Hin). subst y'.
    destruct (bond_loop_at _ _ _ _ _ _ _ Hs Hl Hin) as (v & Hv & Hsolve).
    exists v. split; [exact Hv|].
    unfold bond_solve in Hsolve. apply bind_Ok in Hsolve as (c' & Hc' & Hd').
    apply coupon_closed in Hc' as [_ ->]. exact Hd'. }
  assert (Hind : forall k, (k <= n)%nat ->
            100 - c * table_sum DF (Z.of_nat k + 1)
            == (100 + c) * q ^ Z.of_nat (S k) /\
            ((1 <= k)%nat ->
             exists v, DF !! Z.of_nat k = Some v /\ v == q ^ Z.of_nat k)).
  { induction k as [|k IH]; intros Hk.
    - split; [|lia]. change (Z.of_nat 0 + 1)%Z with 1%Z.
      rewrite table_sum_first. change (q ^ Z.of_nat 1) with q. lra.
    - destruct IH as [IH _]; [lia|].
      replace (Z.of_nat k + 1)%Z with (Z.of_nat (S k)) in IH by lia.
      destruct (Hat (S k)) as (v & Hv & Hb); [lia|].
      pose proof (Qpower_antitone q Hq0 Hq1 (S k) n Hk) as Hge.
      pose proof (Qpower_antitone q Hq0 Hq1 0 (S k) ltac:(lia)) as Hle.
      change (q ^ Z.of_nat 0) with 1 in Hle.
      pose proof (Qpower_0_lt q (Z.of_nat (S k)) Hq0) as Hpos.
      pose proof (weighted_sum_factor c DF (Z.of_nat (S k))) as HW.
      assert (Hv' : v == q ^ Z.of_nat (S k)).
      { apply bond_DF_closed in Hb as [[H1 _]|(H1 & Hne & ->)].
        - exfalso. rewrite HW, IH in H1. nra.
        - assert (Hx : (100 - weighted_sum c DF (Z.of_nat (S k))) / (100 + c)
                       == q ^ Z.of_nat (S k)).
          { rewrite HW, IH. field. lra. }
          rewrite clamp_id; [exact Hx|]. unfold in_range. rewrite Hx.
          split; lra. }
      split; [|intros _; now exists v].
      rewrite (table_sum_succ DF (Z.of_nat (S k))) by lia.
      rewrite Hv. simpl default.
      rewrite (Qpower_S q (S k)) by lra.
      set (T := table_sum DF (Z.of_nat (S k))) in *.
      set (p := q ^ Z.of_nat (S k)) in *.
      nra. }
  intros k Hk. destruct (Hind k) as [_ H]; [lia|]. apply H. lia.
Qed.

Lemma flat_curve_factors_witness :
  exists DF rows v,
    bond_loop 2 "cont" (points 2 [quoted (1 # 2) 4; quoted 1 4]) = Ok (DF, rows) /\
    DF !! 2%Z = Some v /\ v == (1 / (1 + 4 / 100 / 2)) ^ 2.
Proof.
  destruct (bond_loop 2 "cont" (points 2 [quoted (1 # 2) 4; quoted 1 4]))
    as [[DF rows]|e] eqn:E; [|exfalso; vm_compute in E; discriminate].
  assert (Hp : points 2 [quoted (1 # 2) 4; quoted 1 4] = [(1%Z, 4); (2%Z, 4)])
    by (vm_compute; reflexivity).
  destruct (flat_curve_factors [quoted (1 # 2) 4; quoted 1 4] 2 "cont" 2 4
              DF rows) with (k := 2%nat) as (v & Hv & Hq).
  - lia.
  - unfold Qle. simpl. lia.
  - rewrite Hp. reflexivity.
  - rewrite Hp. intros N y' [[= <- <-]|[[= <- <-]|[]]]; reflexivity.
  - vm_compute. reflexivity.
  - exact E.
  - lia.
  - exists DF, rows, v. split; [reflexivity|]. split; [exact Hv|exact Hq].
Defined.

End BootstrapEdges.

(** ** Cleaning *)

Section CleanMore.
Import Spread.
Local Open Scope Q_scope.

Lemma groupby_years_hd r l : exists g gs, groupby_years (r :: l) = (r, g) :: gs.
Proof.
  simpl. destruct (groupby_years l) as [|[h g] gs]; [eauto|].
  destruct (Qeq_bool _ _); eauto.
Qed.

Lemma groupby_years_cover l r :
  In r l -> exists g, In g (groupby_years l) /\ In r (fst g :: snd g).
Proof.
  induction l as [|a l IH]; [intros []|].
  intros Hin. simpl.
  destruct (groupby_years l) as [|[h g] gs] eqn:E.
  - destruct Hin as [<-|Hin]; [exists (a, []); simpl; auto|].
    destruct (IH Hin) as (g & [] & _).
  - destruct (Qeq_bool (c_years a) (c_years h)).
    + destruct Hin as [<-|Hin]; [exists (a, h :: g); simpl; auto|].
      destruct (IH Hin) as (g' & [<-|Hg'] & Hr).
      * exists (a, h :: g). split; [now left|]. now right.
      * exists g'. split; [now right|exact Hr].
    + destruct Hin as [<-|Hin]; [exists (a, []); simpl; auto|].
      destruct (IH Hin) as (g' & Hg' & Hr).
      exists g'. split; [now right|exact Hr].
Qed.

Lemma Qeq_bool_refl x : Qeq_bool x x = true.
Proof. now apply Qeq_bool_iff. Qed.

Lemma Qeq_bool_neq x y : ~ x == y -> Qeq_bool x y = false.
Proof.
  intros H. destruct (Qeq_bool x y) eqn:E; [|reflexivity].
  apply Qeq_bool_iff in E. contradiction.
Qed.

Lemma filter_none {A} (f : A -> bool) l :
  (forall x, In x l -> f x = false) -> List.filter f l = [].
Proof.
  induction l as [|a l IH]; [reflexivity|]. intros H. simpl.
  rewrite (H a) by now left. apply IH. intros x Hx. apply H. now right.
Qed.

(** A group is the run of the rows that share its maturity. *)
Lemma groupby_years_runs l :
  StronglySorted (key_le c_years) l ->
  forall g, In g (groupby_years l) ->
    fst g :: snd g
    = List.filter (fun r => Qeq_bool (c_years (fst g)) (c_years r)) l.
Proof.
  induction 1 as [|r l Hs IH Hr]; [intros g []|].
  pose proof (groupby_years_sorted l Hs) as [Gs Gin].
  rewrite List.Forall_forall in Hr. unfold key_le in Hr.
  intros g Hg. simpl in Hg.
  destruct (groupby_years l) as [|[h gh] gs] eqn:E.
  - destruct l as [|x l'];
      [|destruct (groupby_years_hd x l') as (? & ? & E'); congruence].
    destruct Hg as [<-|[]]. simpl. now rewrite Qeq_bool_refl.
  - assert (Hh : forall x, In x l -> c_years h <= c_years x).
    { destruct l as [|x0 l']; [discriminate|].
      destruct (groupby_years_hd x0 l') as (g0 & gs0 & E0).
      rewrite E0 in E. injection E as -> _ _.
      apply StronglySorted_inv in Hs as [_ Hs].
      rewrite List.Forall_forall in Hs.
      intros x [<-|Hx]; [lra|]. apply (Hs x Hx). }
    apply StronglySorted_inv in Gs as [Gs Gh].
    rewrite List.Forall_forall in Gh. simpl in Gh.
    destruct (Gin (h, gh) (or_introl eq_refl)) as [Hhin _]. simpl in Hhin.
    pose proof (Hr h Hhin) as Hrh.
    destruct (Qeq_bool (c_years r) (c_years h)) eqn:Eq.
    + apply Qeq_bool_iff in Eq. destruct Hg as [<-|Hg]; simpl.
      * rewrite Qeq_bool_refl. f_equal.
        pose proof (IH (h, gh) (or_introl eq_refl)) as IHh. simpl in IHh.
        rewrite IHh. apply filter_ext. intros x.
        destruct (Qeq_bool (c_years h) (c_years x)) eqn:Ex.
        -- apply Qeq_bool_iff in Ex. symmetry. apply Qeq_bool_iff. lra.
        -- symmetry. apply Qeq_bool_neq. intros Hx.
           assert (Hx' : c_years h == c_years x) by lra.
           apply Qeq_bool_iff in Hx'. congruence.
      * pose proof (Gh g Hg) as Hlt.
        rewrite (Qeq_bool_neq (c_years (fst g)) (c_years r)) by lra.
        apply IH. now right.
    + assert (Hlt : c_years r < c_years h).
      { destruct (Qlt_le_dec (c_years r) (c_years h)) as [L|L]; [exact L|].
        assert (Heq : c_years r == c_years h) by lra.
        apply Qeq_bool_iff in Heq. congruence. }
      destruct Hg as [<-|Hg]; simpl.
      * rewrite Qeq_bool_refl. f_equal. symmetry. apply filter_none.
        intros x Hx. apply Qeq_bool_neq. pose proof (Hh x Hx). lra.
      * assert (Hge : c_years h <= c_years (fst g)).
        { destruct Hg as [<-|Hg]; [simpl; lra|].
          pose proof (Gh g Hg). lra. }
        rewrite (Qeq_bool_neq (c_years (fst g)) (c_years r)) by lra.
        now apply IH.
Qed.

Lemma clean_curve_In d c :
  In c (clean_curve d) <->
  exists g, In g (groupby_years (sort_by c_years (valid_rows d))) /\ c = agg g.
Proof.
  rewrite clean_curve_groups, in_map_iff.
  split; intros (g & H1 & H2); exists g; [now split|now split].
Qed.

Lemma valid_rows_In d r :
  In r (valid_rows d) <->
  exists q, In q d /\ years q = Some (c_years r) /\ rate q = Some (c_rate r) /\
            tenor q = c_tenor r.
Proof.
  unfold valid_rows. rewrite omap_In. split.
  - intros (q & Hq & E). exists q. split; [exact Hq|].
    destruct (years q), (rate q); try discriminate.
    injection E as <-. now repeat split.
  - intros (q & Hq & E1 & E2 & E3). exists q. split; [exact Hq|].
    rewrite E1, E2, E3. now destruct r.
Qed.

Lemma clean_curve_years_valid d c :
  In c (clean_curve d) ->
  exists q, In q d /\ years q = Some (c_years c) /\ rate q <> None.
Proof.
  pose proof (groupby_years_sorted _ (sort_by_sorted c_years (valid_rows d)))
    as [_ Gin].
  intros Hc. apply clean_curve_In in Hc as (g & Hg & ->).
  destruct (Gin g Hg) as [Hin _].
  apply sort_by_In, valid_rows_In in Hin as (q & Hq & E1 & E2 & _).
  exists q. split; [exact Hq|]. split; [exact E1|]. now rewrite E2.
Qed.

(** X6: a cleaned curve has strictly ascending maturities (one row per
    maturity); its maturities are maturities of valid input rows, and every
    valid input row finds its maturity in the cleaned curve. *)
Theorem clean_curve_maturities d :
  StronglySorted years_lt (clean_curve d) /\
  (forall c, In c (clean_curve d) ->
     exists q, In q d /\ years q = Some (c_years c) /\ rate q <> None) /\
  (forall q t y, In q d -> years q = Some t -> rate q = Some y ->
     exists c, In c (clean_curve d) /\ c_years c == t).
Proof.
  pose proof (groupby_years_sorted _ (sort_by_sorted c_years (valid_rows d)))
    as [_ Gin].
  split; [apply clean_curve_sorted|]. split.
  - apply clean_curve_years_valid.
  - intros q t y Hq Et Ey.
    assert (Hr : In (mkRow (tenor q) t y) (sort_by c_years (valid_rows d))).
    { apply sort_by_In, valid_rows_In. exists q. now repeat split. }
    apply groupby_years_cover in Hr as (g & Hg & Hr).
    exists (agg g). split; [apply clean_curve_In; now exists g|].
    rewrite agg_years. destruct Hr as [E|Hr]; [now rewrite E|].
    destruct (Gin g Hg) as [_ Hsnd]. destruct (Hsnd _ Hr) as [_ E].
    simpl in E. lra.
Qed.

(** X7: the rate of a cleaned row is the mean of the rates of the valid
    input rows with its maturity, and its label is the first label among
    them; the rows are taken in ascending order of maturity. *)
Theorem clean_curve_averages d c :
  In c (clean_curve d) ->
  exists r0 rest,
    r0 :: rest
    = List.filter (fun r => Qeq_bool (c_years c) (c_years r))
        (sort_by c_years (valid_rows d)) /\
    c_years c = c_years r0 /\
    c_rate c = mean (List.map c_rate (r0 :: rest)) /\
    c_tenor c = first_valid (List.map c_tenor (r0 :: rest)).
Proof.
  intros Hc. apply clean_curve_In in Hc as ([r0 rest] & Hg & ->).
  exists r0, rest. split; [|now repeat split].
  apply (groupby_years_runs _ (sort_by_sorted c_years (valid_rows d)) _ Hg).
Qed.

Lemma clean_curve_averages_witness :
  exists c, In c (clean_curve [quoted 2 3; quoted 1 7; quoted 2 5]) /\
            c_years c = 2 /\ c_rate c == 4.
Proof.
  assert (Hin : In (mkRow None 2 (mean [3; 5]))
                  (clean_curve [quoted 2 3; quoted 1 7; quoted 2 5]))
    by (vm_compute; auto).
  destruct (clean_curve_averages _ _ Hin) as (r0 & rest & E & _ & Hr & _).
  exists (mkRow None 2 (mean [3; 5])). split; [exact Hin|].
  split; [reflexivity|]. rewrite Hr. rewrite E. vm_compute. reflexivity.
Defined.

Lemma groupby_years_strict l :
  StronglySorted years_lt l ->
  groupby_years l = List.map (fun r => (r, [])) l.
Proof.
  induction 1 as [|r l Hs IH Hr]; [reflexivity|].
  simpl. rewrite IH. destruct l as [|h l']; [reflexivity|]. simpl.
  apply Forall_inv in Hr. unfold years_lt in Hr.
  rewrite Qeq_bool_neq by lra. reflexivity.
Qed.

Lemma valid_rows_to_quotes l : valid_rows (to_quotes l) = l.
Proof.
  unfold valid_rows, to_quotes, omap.
  induction l as [|r l IH]; [reflexivity|].
  simpl. rewrite IH. now destruct r.
Qed.

Lemma first_valid_one {A} (t : option A) : first_valid [t] = t.
Proof. now destruct t. Qed.

Lemma mean_one y : mean [y] == y.
Proof. unfold mean. simpl. field. Qed.

Lemma clean_curve_strict d :
  StronglySorted years_lt (valid_rows d) ->
  Forall2 same_row (valid_rows d) (clean_curve d).
Proof.
  intros Hs. rewrite clean_curve_groups.
  rewrite (sort_by_id c_years (valid_rows d))
    by (revert Hs; apply sorted_impl; unfold years_lt, key_le; intros; lra).
  rewrite (groupby_years_strict _ Hs). clear Hs.
  induction (valid_rows d) as [|r l IH]; constructor; [|exact IH].
  split; [exact (first_valid_one (c_tenor r))|].
  split; [reflexivity|]. exact (mean_one (c_rate r)).
Qed.

(** X8: cleaning is idempotent: a curve whose valid rows already have
    strictly ascending maturities comes back with the same labels,
    maturities and rates, so cleaning a cleaned curve changes nothing. *)
Theorem clean_curve_idempotent d :
  (StronglySorted years_lt (valid_rows d) ->
   Forall2 same_row (valid_rows d) (clean_curve d)) /\
  Forall2 same_row (clean_curve d) (clean_curve (to_quotes (clean_curve d))).
Proof.
  split; [apply clean_curve_strict|].
  pose proof (clean_curve_strict (to_quotes (clean_curve d))) as H.
  rewrite valid_rows_to_quotes in H. apply H, clean_curve_sorted.
Qed.

End CleanMore.

(** ** Spreads *)

Section SpreadMore.
Import Spread.
Local Open Scope Q_scope.

Lemma bind_of_Ok {A B} (a : A) (f : A -> result B) : Ok a ≫= f = f a.
Proof. reflexivity. Qed.

Lemma Qle_bool_true x y : x <= y -> Qle_bool x y = true.
Proof. apply Qle_bool_iff. Qed.

Lemma filter_self a ra :
  StronglySorted years_lt a -> In ra a ->
  List.filter (fun rb => Qeq_bool (c_years ra) (c_years rb)) a = [ra].
Proof.
  induction 1 as [|x a Hs IH Hx]; [intros []|].
  rewrite List.Forall_forall in Hx. unfold years_lt in Hx.
  intros [<-|Hin]; simpl.
  - rewrite Qeq_bool_refl. f_equal. apply filter_none.
    intros y Hy. apply Qeq_bool_neq. pose proof (Hx y Hy). lra.
  - rewrite Qeq_bool_neq by (pose proof (Hx ra Hin); lra). now apply IH.
Qed.

Lemma flat_map_singleton {A B} (f : A -> list B) (g : A -> B) l :
  (forall x, In x l -> f x = [g x]) -> flat_map f l = List.map g l.
Proof.
  induction l as [|a l IH]; [reflexivity|]. intros H. simpl.
  rewrite (H a) by now left. simpl. f_equal. apply IH.
  intros x Hx. apply H. now right.
Qed.

(** The exact join of a cleaned curve with itself pairs every row with
    itself. *)
Lemma merge_inner_self a :
  StronglySorted years_lt a ->
  merge_inner a a = List.map (fun r => join_row r (c_rate r)) a.
Proof.
  intros Hs. unfold merge_inner. apply flat_map_singleton.
  intros ra Hra. now rewrite (filter_self a ra Hs Hra).
Qed.

Lemma nearest_join_one r0 tol :
  0 <= tol -> nearest_join [r0] [r0] tol = Ok [join_row r0 (c_rate r0)].
Proof.
  intros Ht. rewrite (nearest_join_Ok _ _ _ Ht). simpl.
  unfold asof_nearest, asof_backward, asof_forward. simpl.
  rewrite (Qle_bool_true (c_years r0) (c_years r0)) by lra. simpl.
  rewrite (Qle_bool_true (c_years r0 - c_years r0) tol) by lra.
  rewrite (Qle_bool_true (c_years r0 - c_years r0)
             (c_years r0 - c_years r0)) by lra.
  reflexivity.
Qed.

Lemma align_self a tol :
  0 <= tol -> a <> [] -> StronglySorted years_lt a ->
  align a a tol = Ok (List.map (fun r => join_row r (c_rate r)) a).
Proof.
  intros Ht Ha Hs. unfold align. rewrite (merge_inner_self a Hs).
  rewrite length_map.
  destruct a as [|r0 [|r1 a']]; [contradiction| |].
  - simpl. now apply nearest_join_one.
  - assert (E : needs_fallback (length (r0 :: r1 :: a'))
                  (length (r0 :: r1 :: a')) (length (r0 :: r1 :: a')) = false).
    { unfold needs_fallback. rewrite Nat.min_id.
      apply orb_false_iff. split; [reflexivity|].
      apply Z.ltb_ge.
      change (length (r0 :: r1 :: a')) with (S (S (length a'))).
      apply Z.max_lub; [lia|]. apply Z.div_le_upper_bound; lia. }
    now rewrite E.
Qed.

Lemma spread_of_sorted country (g : crow -> Q) a :
  StronglySorted years_lt a ->
  sort_by sp_years
    (List.map (spread_of country) (List.map (fun r => join_row r (g r)) a))
  = List.map (fun r => mkSpread (c_tenor r) (c_years r)
                         ((c_rate r - g r) * 100) country) a.
Proof.
  intros Hs. rewrite map_map. apply sort_by_id.
  revert Hs. apply map_sorted. intros r s H.
  unfold key_le, years_lt in *. simpl. lra.
Qed.

(** X9: a curve has zero spread to itself.  For a tolerance that is not
    negative, the spread of a curve against itself has one row per cleaned
    maturity and every spread is 0, whether the alignment stays on the
    exact join or, for a one-row curve, goes through the fallback. *)
Theorem self_spread_zero d country tol :
  0 <= tol ->
  exists out,
    add_spread_vs_ref_par d d country tol = Ok out /\
    List.map sp_years out = List.map c_years (clean_curve d) /\
    forall r, In r out -> sp_spread_bp r == 0.
Proof.
  intros Ht. unfold add_spread_vs_ref_par.
  pose proof (clean_curve_sorted d) as Hs.
  destruct (clean_curve d) as [|r0 a] eqn:E.
  - exists []. split; [reflexivity|]. split; [reflexivity|]. intros r [].
  - rewrite (align_self (r0 :: a) tol Ht) by (discriminate || exact Hs).
    rewrite bind_of_Ok, (spread_of_sorted country c_rate _ Hs).
    eexists. split; [reflexivity|]. split.
    + rewrite map_map. reflexivity.
    + intros r Hr. apply in_map_iff in Hr as (ra & <- & _). simpl. ring.
Qed.

Lemma self_spread_zero_witness :
  exists out,
    add_spread_vs_ref_par [quoted 2 3] [quoted 2 3] "X" (15 # 100) = Ok out /\
    List.map sp_years out = [2].
Proof.
  destruct (self_spread_zero [quoted 2 3] "X" (15 # 100))
    as (out & Ho & Hy & _); [unfold Qle; simpl; lia|].
  exists out. split; [exact Ho|]. rewrite Hy. vm_compute. reflexivity.
Defined.

(** X10: a negative tolerance is only noticed in the fallback: two
    non-empty curves without a common maturity raise MergeError
    (merge_asof rejects the tolerance), and nothing is returned. *)
Theorem negative_tolerance_raises df_target df_ref country tol :
  tol < 0 ->
  clean_curve df_target <> [] -> clean_curve df_ref <> [] ->
  (forall ra rb, In ra (clean_curve df_target) -> In rb (clean_curve df_ref) ->
     ~ c_years ra == c_years rb) ->
  add_spread_vs_ref_par df_target df_ref country tol = Raise MergeError.
Proof.
  intros Ht Ha Hb Hne. unfold add_spread_vs_ref_par.
  destruct (clean_curve df_target) as [|a0 a] eqn:Ea; [contradiction|].
  destruct (clean_curve df_ref) as [|b0 b] eqn:Eb; [contradiction|].
  assert (Hm : merge_inner (a0 :: a) (b0 :: b) = []).
  { destruct (merge_inner (a0 :: a) (b0 :: b)) as [|j m] eqn:E; [reflexivity|].
    assert (Hj : In j (merge_inner (a0 :: a) (b0 :: b)))
      by (rewrite E; now left).
    apply merge_inner_In in Hj as (ra & rb & H1 & H2 & H3 & _).
    destruct (Hne ra rb H1 H2 H3). }
  unfold align. rewrite Hm. simpl length.
  unfold needs_fallback. simpl orb. cbv iota.
  unfold nearest_join, merge_asof_nearest.
  assert (E : Qle_bool 0 tol = false).
  { destruct (Qle_bool 0 tol) eqn:E; [|reflexivity].
    apply Qle_bool_iff in E. lra. }
  now rewrite E.
Qed.

Lemma negative_tolerance_raises_witness :
  add_spread_vs_ref_par [quoted 2 3; quoted 5 4] [quoted 3 1] "X" (- (1 # 10))
  = Raise MergeError.
Proof.
  apply negative_tolerance_raises.
  - reflexivity.
  - vm_compute. discriminate.
  - vm_compute. discriminate.
  - intros ra rb Ha Hb. vm_compute in Ha, Hb.
    destruct Ha as [<-|[<-|[]]]; destruct Hb as [<-|[]];
      vm_compute; discriminate.
Defined.

(** On a maturity of the swap curve the interpolation returns the quoted
    rate. *)
Lemma swap_interp_knot b r :
  StronglySorted years_lt b -> In r b -> swap_interp b (c_years r) = c_rate r.
Proof.
  intros Hb Hin. apply in_split in Hin as (l1 & l2 & ->).
  pose proof (knots_sorted _ Hb) as Hs.
  unfold swap_interp. set (f := fun r => (c_years r, c_rate r)) in *.
  rewrite map_app in *.
  change (List.map f (r :: l2)) with (f r :: List.map f l2) in *.
  remember (List.map f l1 ++ f r :: List.map f l2) as pts eqn:E.
  destruct pts as [|p l']; [now destruct (List.map f l1)|].
  unfold np_interp.
  pose proof (sorted_hd_le _ _ _ _ _ Hs E) as Hp. simpl in Hp.
  rewrite (Qle_bool_true (fst p) (c_years r)) by lra. simpl.
  assert (Hin : In (f r) (p :: l')).
  { rewrite E. apply in_or_app. right. now left. }
  pose proof (sorted_last_le _ _ _ Hs Hin) as Hl. simpl in Hl.
  rewrite (Qle_bool_true (c_years r) (fst (List.last l' p))) by lra. simpl.
  rewrite (interp_from_knot _ _ _ _ _ _ Hs E); [reflexivity|].
  simpl. reflexivity.
Qed.

Lemma asw_spread_rows df_bonds df_swaps country :
  (2 <= length (clean_curve df_swaps))%nat ->
  asw_spread df_bonds df_swaps country
  = List.map (fun ra =>
                mkSpread (c_tenor ra) (c_years ra)
                  ((c_rate ra - swap_interp (clean_curve df_swaps) (c_years ra))
                   * 100) country)
      (clean_curve df_bonds).
Proof.
  intros Hb. unfold asw_spread.
  assert (E : (length (clean_curve df_swaps) <? 2)%nat = false)
    by (apply Nat.ltb_ge; exact Hb).
  rewrite E, orb_false_r.
  destruct (length (clean_curve df_bonds) =? 0)%nat eqn:Ea.
  - apply Nat.eqb_eq in Ea. now destruct (clean_curve df_bonds).
  - apply sort_by_id, spread_rows_sorted, clean_curve_sorted.
Qed.

(** X11: the ASW spread of a curve against itself is 0 at every cleaned
    maturity: on a maturity of the swap curve the interpolation returns the
    quoted swap rate. *)
Theorem asw_spread_self_zero d country :
  (2 <= length (clean_curve d))%nat ->
  List.map sp_years (asw_spread d d country)
  = List.map c_years (clean_curve d) /\
  forall r, In r (asw_spread d d country) -> sp_spread_bp r == 0.
Proof.
  intros Hb. rewrite (asw_spread_rows d d country Hb). split.
  - rewrite map_map. reflexivity.
  - intros r Hr. apply in_map_iff in Hr as (ra & <- & Hra). simpl.
    rewrite (swap_interp_knot _ ra (clean_curve_sorted d) Hra). ring.
Qed.

Lemma asw_spread_self_zero_witness :
  List.map sp_years (asw_spread [quoted 1 3; quoted 4 5] [quoted 1 3; quoted 4 5] "X")
  = [1; 4].
Proof.
  destruct (asw_spread_self_zero [quoted 1 3; quoted 4 5] "X") as [H _];
    [vm_compute; lia|].
  rewrite H. vm_compute. reflexivity.
Defined.





Lemma sorted_constant_key a t :
  StronglySorted years_lt a -> (forall r, In r a -> c_years r = t) ->
  (length a <= 1)%nat.
Proof.
  intros Hs Ht. destruct a as [|r0 [|r1 a']]; simpl; try lia.
  exfalso. apply StronglySorted_inv in Hs as [_ Hs]. apply Forall_inv in Hs.
  unfold years_lt in Hs.
  rewrite (Ht r0), (Ht r1) in Hs by (simpl; auto). lra.
Qed.

(** X13: swap quotes at a single maturity, however many, are one point
    after cleaning, which is fewer than the two the interpolation asks for:
    the ASW result is empty for every bond curve. *)
Theorem asw_spread_single_maturity df_bonds t ys country :
  asw_spread df_bonds (List.map (quoted t) ys) country = [].
Proof.
  unfold asw_spread.
  assert (Hl : (length (clean_curve (List.map (quoted t) ys)) <= 1)%nat).
  { apply (sorted_constant_key _ t); [apply clean_curve_sorted|].
    intros c Hc.
    destruct (clean_curve_years_valid _ c Hc) as (q & Hq & E & _).
    apply in_map_iff in Hq as (y & <- & _). simpl in E. congruence. }
  assert (E : (length (clean_curve (List.map (quoted t) ys)) <? 2)%nat = true)
    by (apply Nat.ltb_lt; lia).
  now rewrite E, orb_true_r.
Qed.

End SpreadMore.

(** ** The hedge engine *)

Section HedgeMore.
Import Hedging.
Local Open Scope float_scope.

(** X14: on a two-row swap curve without missing values the label found by
    idxmin is used as a position in the sorted column.  In ascending order
    label and position agree and the nearer tenor is returned (the first one
    on a tie); in descending order they are swapped, and when the first row
    is strictly nearer the tenor of the second row is returned. *)
Theorem pick_nearest_two_rows r0 r1 T :
  is_nan (sw_years r0) = false -> is_nan (sw_years r1) = false ->
  is_nan (abs (sw_years r0 - T)) = false ->
  is_nan (abs (sw_years r1 - T)) = false ->
  ((sw_years r0 <=? sw_years r1) = true ->
   pick_nearest_swap_tenor [r0; r1] T
   = Ok (if abs (sw_years r1 - T) <? abs (sw_years r0 - T)
         then sw_years r1 else sw_years r0)) /\
  ((sw_years r0 <=? sw_years r1) = false ->
   pick_nearest_swap_tenor [r0; r1] T
   = Ok (if abs (sw_years r0 - T) <? abs (sw_years r1 - T)
         then sw_years r1 else sw_years r0)).
Proof.
  intros N0 N1 D0 D1.
  split; intros Hle; unfold pick_nearest_swap_tenor, labelled; simpl;
    rewrite N0, N1; simpl; rewrite Hle; unfold idxmin, distances; simpl;
    rewrite D0, D1; simpl.
  - now destruct (abs (sw_years r1 - T) <? abs (sw_years r0 - T)).
  - now destruct (abs (sw_years r0 - T) <? abs (sw_years r1 - T)).
Qed.

Lemma pick_nearest_two_rows_witness :
  pick_nearest_swap_tenor [mkSwap 10 2.55; mkSwap 2 3.1] 9 = Ok 2.
Proof.
  refine (eq_trans
    (proj2 (pick_nearest_two_rows (mkSwap 10 2.55) (mkSwap 2 3.1) 9 _ _ _ _) _)
    _); vm_compute; reflexivity.
Defined.

(** X15: a swap curve of two rows whose first row has no maturity leaves one
    row with label 1 after the missing value is dropped; position 1 does not
    exist and the lookup raises IndexError, and so does the proposal once
    the bond DV01 is computed. *)
Theorem pick_nearest_index_error face coupon_pct ytm_pct T_years r0 r1 fs
    freq b :
  is_nan (sw_years r0) = true -> is_nan (sw_years r1) = false ->
  is_nan (abs (sw_years r1 - T_years)) = false ->
  bond_dv01 face coupon_pct ytm_pct T_years 2 1.0 = Ok b ->
  pick_nearest_swap_tenor [r0; r1] T_years = Raise IndexError /\
  hedge_proposal face coupon_pct ytm_pct T_years [r0; r1] fs freq
  = Raise IndexError.
Proof.
  intros N0 N1 D1 Hb.
  assert (Hp : pick_nearest_swap_tenor [r0; r1] T_years = Raise IndexError).
  { unfold pick_nearest_swap_tenor, labelled. simpl. rewrite N0, N1. simpl.
    unfold idxmin, distances. simpl. rewrite D1. reflexivity. }
  split; [exact Hp|].
  unfold hedge_proposal. rewrite Hb. simpl.
  unfold hedge_legs, irs_block. now rewrite Hp.
Qed.

Lemma pick_nearest_index_error_witness :
  hedge_proposal 100 5 3 7.3 [mkSwap PrimFloat.nan 2.7; mkSwap 7 2.6]
    (Some "FGBL"%string) 2
  = Raise IndexError.
Proof.
  destruct (bond_dv01 100 5 3 7.3 2 1.0) as [b|e] eqn:E;
    [|exfalso; vm_compute in E; discriminate].
  refine (proj2 (pick_nearest_index_error 100 5 3 7.3
                   (mkSwap PrimFloat.nan 2.7) (mkSwap 7 2.6)
                   (Some "FGBL"%string) 2 b _ _ _ E));
    vm_compute; reflexivity.
Defined.

Lemma upper_char_idempotent c :
  Tenor.upper_char (Tenor.upper_char c) = Tenor.upper_char c.
Proof. destruct c as [[] [] [] [] [] [] [] []]; reflexivity. Qed.

Lemma upper_string_idempotent s :
  upper_string (upper_string s) = upper_string s.
Proof.
  unfold upper_string. rewrite list_ascii_of_string_of_list_ascii.
  f_equal. unfold Tenor.upper. rewrite map_map.
  apply map_ext. intros c. apply upper_char_idempotent.
Qed.

(** X16: the futures lookup ignores letter case, and what it returns is
    either a positive DV01 of the table or nan; it never returns zero or a
    negative number. *)
Theorem futures_dv01_lookup_cases symbol :
  futures_dv01_lookup (upper_string symbol) = futures_dv01_lookup symbol /\
  ((exists d, table !! upper_string symbol = Some d /\
              futures_dv01_lookup symbol = d /\ usable d = true) \/
   (table !! upper_string symbol = None /\
    futures_dv01_lookup symbol = PrimFloat.nan)).
Proof.
  split.
  - unfold futures_dv01_lookup. now rewrite upper_string_idempotent.
  - unfold futures_dv01_lookup.
    destruct (table !! upper_string symbol) as [d|] eqn:E.
    + left. exists d. split; [reflexivity|]. split; [reflexivity|].
      eapply table_positive, E.
    + now right.
Qed.

Lemma ltb_leb x y : (x <? y) = true -> (x <=? y) = true.
Proof.
  rewrite ltb_spec, leb_spec. unfold SFltb, SFleb.
  now destruct (SFcompare (Prim2SF x) (Prim2SF y)) as [[]|].
Qed.

Lemma fmin_le a s : (a <=? a) = true -> (fmin a s <=? a) = true.
Proof.
  intros Ha. unfold fmin. destruct (s <? a) eqn:E; [|exact Ha].
  now apply ltb_leb.
Qed.

(** X17: the liquidity score is at most 1 (and so is not nan) for every
    input: any flag, any bid/ask and volume, missing, negative, infinite or
    nan. *)
Theorem liquidity_score_at_most_one is_on_the_run bid_ask_bp
    est_daily_volume_mm :
  (liquidity_score is_on_the_run bid_ask_bp est_daily_volume_mm <=? 1) = true.
Proof.
  unfold liquidity_score. apply fmin_le. vm_compute. reflexivity.
Qed.

Lemma float_div_Ok a b : (b =? 0) = false -> float_div a b = Ok (a / b).
Proof. unfold float_div. now intros ->. Qed.

Lemma bond_price_matured face coupon_pct ytm_pct T_years freq n :
  (float_of_Z freq =? 0) = false ->
  py_round_int (T_years * float_of_Z freq) = Ok n -> (n <= 0)%Z ->
  bond_price_clean face coupon_pct ytm_pct T_years freq = Ok face.
Proof.
  intros Hf Hn Hle. unfold bond_price_clean, _y_to_per_period.
  rewrite !(float_div_Ok _ _ Hf). simpl. rewrite Hn. simpl.
  apply Z.leb_le in Hle. now rewrite Hle.
Qed.

(** X18: a bond whose maturity rounds to no coupon period is priced at its
    face value whatever its coupon and yield, and its DV01 is the absolute
    value of (face - face) / (bump / 10000): the two prices of the bump are
    the same. *)
Theorem bond_without_periods face T_years freq n bump_bp :
  (float_of_Z freq =? 0) = false ->
  py_round_int (T_years * float_of_Z freq) = Ok n -> (n <= 0)%Z ->
  (bump_bp / 10000 =? 0) = false ->
  forall coupon_pct ytm_pct,
    bond_price_clean face coupon_pct ytm_pct T_years freq = Ok face /\
    bond_dv01 face coupon_pct ytm_pct T_years freq bump_bp
    = Ok (abs ((face - face) / (bump_bp / 10000))).
Proof.
  intros Hf Hn Hle Hb coupon_pct ytm_pct.
  split; [now apply (bond_price_matured _ _ _ _ _ n)|].
  unfold bond_dv01.
  rewrite !(bond_price_matured _ _ _ _ _ n Hf Hn Hle). simpl.
  now rewrite (float_div_Ok _ _ Hb).
Qed.

Lemma bond_without_periods_witness :
  bond_dv01 100 5 3 0.2 2 1 = Ok 0.
Proof.
  refine (eq_trans
    (proj2 (bond_without_periods 100 0.2 2 0 1 _ _ _ _ 5 3)) _);
    try (vm_compute; reflexivity). lia.
Defined.

(** X19: with frequency 0 the bond price and the bond DV01 raise
    ZeroDivisionError for every bond: the coupon per period is computed
    first. *)
Theorem bond_zero_frequency face coupon_pct ytm_pct T_years bump_bp :
  bond_price_clean face coupon_pct ytm_pct T_years 0 = Raise ZeroDivisionError /\
  bond_dv01 face coupon_pct ytm_pct T_years 0 bump_bp = Raise ZeroDivisionError.
Proof. split; reflexivity. Qed.

(** X20: the swap DV01 does not depend on the rates of the curve: when it
    returns for a curve with rows it is tenor * (1 / freq) * 100; the
    nearest row is looked up and not used.  An empty curve gives nan. *)
Theorem swap_dv01_ignores_rates df_swaps tenor_years freq v :
  swap_dv01_from_par_curve df_swaps tenor_years freq = Ok v ->
  (df_swaps = [] /\ v = PrimFloat.nan) \/
  (df_swaps <> [] /\ (float_of_Z freq =? 0) = false /\
   v = tenor_years * (1 / float_of_Z freq) * 100).
Proof.
  unfold swap_dv01_from_par_curve. destruct df_swaps as [|r df].
  - intros [= <-]. now left.
  - intros H. right. split; [discriminate|].
    apply bind_Ok in H as (idx & _ & H).
    apply bind_Ok in H as (alpha & Ha & [= <-]).
    unfold float_div in Ha.
    destruct (float_of_Z freq =? 0); [discriminate|].
    injection Ha as <-. now split.
Qed.

Lemma swap_dv01_ignores_rates_witness :
  swap_dv01_from_par_curve [mkSwap 5 2.7; mkSwap 7 100] 7 2 = Ok 350.
Proof.
  destruct (swap_dv01_from_par_curve [mkSwap 5 2.7; mkSwap 7 100] 7 2)
    as [v|e] eqn:E; [|vm_compute in E; discriminate].
  destruct (swap_dv01_ignores_rates _ _ _ _ E) as [[H _]|(_ & _ & ->)];
    [discriminate|].
  vm_compute. reflexivity.
Defined.

Lemma abs_not_negative x : (abs x <? 0) = false.
Proof.
  rewrite ltb_spec, abs_spec. change (Prim2SF 0) with (S754_zero false).
  now destruct (Prim2SF x) as [s|s| |s m e].
Qed.

(** X21: a bond DV01 that is returned is never negative. *)
Theorem bond_dv01_not_negative face coupon_pct ytm_pct T_years freq bump_bp v :
  bond_dv01 face coupon_pct ytm_pct T_years freq bump_bp = Ok v ->
  (v <? 0) = false.
Proof.
  unfold bond_dv01. intros H.
  apply bind_Ok in H as (p0 & _ & H).
  apply bind_Ok in H as (p_up & _ & H).
  apply bind_Ok in H as (dv01 & _ & [= <-]).
  apply abs_not_negative.
Qed.

Lemma bond_dv01_not_negative_witness :
  exists v, bond_dv01 100 5 3 7.3 2 1 = Ok v /\ (v <? 0) = false.
Proof.
  destruct (bond_dv01 100 5 3 7.3 2 1) as [v|e] eqn:E;
    [|vm_compute in E; discriminate].
  exists v. split; [reflexivity|].
  exact (bond_dv01_not_negative 100 5 3 7.3 2 1 v E).
Defined.

End HedgeMore.

(** ** Tenor labels *)

Section TenorMore.
Import Tenor.

Lemma is_space_upper c : is_space (upper_char c) = is_space c.
Proof. destruct c as [[] [] [] [] [] [] [] []]; reflexivity. Qed.

Lemma lstrip_upper l : lstrip (upper l) = upper (lstrip l).
Proof.
  unfold upper. induction l as [|c l IH]; [reflexivity|].
  simpl. rewrite is_space_upper. destruct (is_space c); [exact IH|reflexivity].
Qed.

Lemma upper_rev l : upper (rev l) = rev (upper l).
Proof. unfold upper. apply List.map_rev. Qed.

Lemma strip_upper l : strip (upper l) = upper (strip l).
Proof.
  unfold strip.
  now rewrite lstrip_upper, <- upper_rev, lstrip_upper, <- upper_rev.
Qed.

Lemma upper_upper l : upper (upper l) = upper l.
Proof.
  unfold upper. rewrite map_map. apply map_ext. intros c.
  apply upper_char_idempotent.
Qed.

Lemma lstrip_lstrip l : lstrip (lstrip l) = lstrip l.
Proof.
  induction l as [|c l IH]; [reflexivity|].
  simpl. destruct (is_space c) eqn:E; [exact IH|]. simpl. now rewrite E.
Qed.

Lemma lstrip_head l c x : lstrip l = c :: x -> is_space c = false.
Proof.
  induction l as [|a l IH]; [discriminate|].
  simpl. destruct (is_space a) eqn:E; [exact IH|].
  intros [= <- _]. exact E.
Qed.

Lemma lstrip_snoc l c : is_space c = false -> lstrip (l ++ [c]) = lstrip l ++ [c].
Proof.
  intros Hc. induction l as [|a l IH]; simpl; [now rewrite Hc|].
  destruct (is_space a); [exact IH|reflexivity].
Qed.

(** Trimming on the right keeps a first character that is not a space. *)
Lemma lstrip_strip l : lstrip (strip l) = strip l.
Proof.
  unfold strip. destruct (lstrip l) as [|c x] eqn:E; [reflexivity|].
  pose proof (lstrip_head _ _ _ E) as Hc.
  cbn [rev]. rewrite (lstrip_snoc _ _ Hc), rev_app_distr.
  cbn [rev app lstrip]. now rewrite Hc.
Qed.

Lemma strip_strip l : strip (strip l) = strip l.
Proof.
  unfold strip at 1. rewrite lstrip_strip. unfold strip.
  now rewrite rev_involutive, lstrip_lstrip.
Qed.

Lemma text_of_list l : text (string_of_list_ascii l) = l.
Proof. apply list_ascii_of_string_of_list_ascii. Qed.

(** X22: the three tenor parsers read a label up to letter case and
    surrounding whitespace: the upper-cased label and the trimmed label
    give what the label gives, a value, no value or the error. *)
Theorem tenor_parsing_normalised t :
  let up := string_of_list_ascii (upper (text t)) in
  let trimmed := string_of_list_ascii (strip (text t)) in
  (_tenor_to_years (PyStr up) = _tenor_to_years (PyStr t) /\
   _tenor_to_years (PyStr trimmed) = _tenor_to_years (PyStr t)) /\
  (tenor_to_years (PyStr up) = tenor_to_years (PyStr t) /\
   tenor_to_years (PyStr trimmed) = tenor_to_years (PyStr t)) /\
  (SwapLoader._tenor_to_years up = SwapLoader._tenor_to_years t /\
   SwapLoader._tenor_to_years trimmed = SwapLoader._tenor_to_years t).
Proof.
  intros up trimmed.
  assert (Eu : upper (strip (text up)) = upper (strip (text t))).
  { unfold up. now rewrite text_of_list, strip_upper, upper_upper. }
  assert (Et : upper (strip (text trimmed)) = upper (strip (text t))).
  { unfold trimmed. now rewrite text_of_list, strip_strip. }
  unfold _tenor_to_years, tenor_to_years, SwapLoader._tenor_to_years.
  now rewrite Eu, Et.
Qed.







End TenorMore.

(** ** The swap curves of the loader *)

Section LoaderFacts.
Import SwapLoader Spread.
Local Open Scope Q_scope.

(** X24: on every string the parser of the loader follows the curve
    parser: the same value, the same error, and nan where the curve parser
    returns None. *)
Theorem loader_tenor_parser t :
  SwapLoader._tenor_to_years t
  = match Tenor._tenor_to_years (Tenor.PyStr t) with
    | Ok (Some v) => Ok v
    | Ok None => Ok Tenor.NaN
    | Raise e => Raise e
    end.
Proof.
  unfold SwapLoader._tenor_to_years, Tenor._tenor_to_years.
  destruct (Tenor.endswith _ "Y");
    [destruct (Tenor.py_float _); reflexivity|].
  destruct (Tenor.endswith _ "M");
    [destruct (Tenor.py_float _); reflexivity|].
  reflexivity.
Qed.

Lemma data_curves k c :
  data !! k = Some c ->
  In c [EUR; USD; CAD; GBP; JPY; AUD; NZD; SEK] /\
  (k = "EUR"%string -> c = EUR).
Proof.
  unfold data. intros H. apply elem_of_list_to_map_2 in H.
  repeat (apply elem_of_cons in H as [H|H];
          [injection H as -> ->; split; [simpl; tauto|];
           intros E; first [reflexivity | discriminate E]|]).
  now apply elem_of_nil in H.
Qed.

Ltac run H := vm_compute in H; first [discriminate H | injection H as <-].

(** What [load_swaps] returns are the rows of one of the eight curves, in
    the order of the dictionary. *)
Lemma load_swaps_cases currency :
  exists curve rows,
    In curve [EUR; USD; CAD; GBP; JPY; AUD; NZD; SEK] /\
    (data !! py_upper (default ""%string currency) = None -> curve = EUR) /\
    (py_upper (default ""%string currency) = "EUR"%string -> curve = EUR) /\
    curve_rows (py_upper (default ""%string currency)) curve = Ok rows /\
    load_swaps currency = Ok rows.
Proof.
  unfold load_swaps. generalize (py_upper (default ""%string currency)).
  intros ccy. destruct (data !! ccy) as [c|] eqn:E.
  - destruct (data_curves _ _ E) as [Hin Heur]. exists c.
    destruct (curve_rows ccy c) as [rows|e] eqn:Er.
    + exists rows. split; [exact Hin|]. split; [discriminate|].
      split; [exact Heur|]. split; [reflexivity|].
      simpl in Hin.
      repeat (destruct Hin as [<-|Hin];
              [run Er; vm_compute; reflexivity|]).
      destruct Hin.
    + exfalso. simpl in Hin.
      repeat (destruct Hin as [<-|Hin]; [run Er|]). destruct Hin.
  - exists EUR.
    destruct (curve_rows ccy EUR) as [rows|e] eqn:Er; [|exfalso; run Er].
    exists rows. split; [now left|]. split; [auto|]. split; [auto|].
    split; [reflexivity|]. run Er. vm_compute. reflexivity.
Qed.

(** X25: for every argument, a known currency, an unknown one, the empty
    string or None, [load_swaps] returns nine rows with the labels 1Y .. 30Y
    and the maturities 1, 2, 3, 5, 7, 10, 15, 20, 30 in ascending order; the
    rows carry the upper-cased argument as currency, and a currency without
    a curve gets the EUR rates. *)
Theorem load_swaps_grid currency :
  exists rows,
    load_swaps currency = Ok rows /\
    List.map l_tenor rows
    = ["1Y"; "2Y"; "3Y"; "5Y"; "7Y"; "10Y"; "15Y"; "20Y"; "30Y"]%string /\
    List.map l_years rows = List.map Tenor.Fin [1; 2; 3; 5; 7; 10; 15; 20; 30] /\
    (forall r, In r rows ->
       l_currency r = py_upper (default ""%string currency)) /\
    (data !! py_upper (default ""%string currency) = None ->
     List.map l_rate rows = List.map snd EUR).
Proof.
  destruct (load_swaps_cases currency)
    as (curve & rows & Hin & Hnone & _ & Hr & Hl).
  exists rows. split; [exact Hl|]. clear Hl.
  revert Hnone Hr. generalize (py_upper (default ""%string currency)).
  intros ccy Hnone Hr. simpl in Hin.
  repeat (destruct Hin as [<-|Hin];
    [run Hr; split; [reflexivity|]; split; [reflexivity|]; split;
       [intros r Hin; simpl in Hin;
        repeat (destruct Hin as [<-|Hin]; [reflexivity|]); destruct Hin
       |intros Hn; specialize (Hnone Hn);
        first [reflexivity | discriminate Hnone]]|]).
  destruct Hin.
Qed.

(** X26: the swap spread the dashboard shows, the loaded curve of a
    currency against the loaded EUR curve, is aligned by the exact join for
    every currency and every tolerance: nine rows on the nine maturities;
    for EUR itself and for a currency without a curve every spread is 0. *)
Theorem loaded_swap_spread currency country tol :
  exists rows ref a b out,
    load_swaps currency = Ok rows /\
    load_swaps (Some "EUR"%string) = Ok ref /\
    curve_of rows = Some a /\ curve_of ref = Some b /\
    swap_spread_vs_ref a b country tol = Ok out /\
    List.map sp_years out = [1; 2; 3; 5; 7; 10; 15; 20; 30] /\
    (data !! py_upper (default ""%string currency) = None \/
     py_upper (default ""%string currency) = "EUR"%string ->
     forall r, In r out -> sp_spread_bp r == 0).
Proof.
  destruct (load_swaps_cases currency)
    as (curve & rows & Hin & Hnone & Heur & Hr & Hl).
  assert (Hz : data !! py_upper (default ""%string currency) = None \/
               py_upper (default ""%string currency) = "EUR"%string ->
               curve = EUR) by (intros [H|H]; auto).
  clear Hnone Heur. exists rows.
  destruct (load_swaps (Some "EUR"%string)) as [ref|e] eqn:Eref;
    [|exfalso; run Eref].
  exists ref. run Eref. revert Hz Hr.
  generalize (py_upper (default ""%string currency)). intros ccy Hz Hr.
  simpl in Hin.
  repeat (destruct Hin as [E|Hin];
    [subst curve; run Hr;
     match goal with
     | |- exists a b out,
            _ /\ _ /\ curve_of ?R = Some a /\ curve_of ?F = Some b /\ _ =>
         let va := eval vm_compute in (curve_of R) in
         let vb := eval vm_compute in (curve_of F) in
         match va with
         | Some ?qa =>
             match vb with
             | Some ?qb =>
                 let vo := eval vm_compute in
                             (swap_spread_vs_ref qa qb country tol) in
                 match vo with
                 | Ok ?o => exists qa, qb, o
                 end
             end
         end
     end;
     split; [exact Hl|]; split; [reflexivity|];
     do 4 (split; [vm_compute; reflexivity|]);
     intros H; specialize (Hz H);
     first [discriminate Hz
           |intros r Hr; simpl in Hr;
            repeat (destruct Hr as [<-|Hr]; [vm_compute; reflexivity|]);
            destruct Hr]|]).
  destruct Hin.
Qed.

(** X27: against a loaded swap curve the ASW spread has one row for every
    cleaned bond maturity, whatever the currency: the loaded curve always
    has the two rows the interpolation needs.  Bond maturities up to 1 year
    are compared with the 1Y swap rate and maturities from 30 years on with
    the 30Y rate. *)
Theorem loaded_asw_spread currency df_bonds country :
  exists rows sw r1 r30,
    load_swaps currency = Ok rows /\ curve_of rows = Some sw /\
    head rows = Some r1 /\ last rows = Some r30 /\
    asw_spread df_bonds sw country
    = List.map (fun ra =>
                  mkSpread (c_tenor ra) (c_years ra)
                    ((c_rate ra - swap_interp (clean_curve sw) (c_years ra))
                     * 100) country)
        (clean_curve df_bonds) /\
    (forall x, x <= 1 -> swap_interp (clean_curve sw) x == l_rate r1) /\
    (forall x, 30 <= x -> swap_interp (clean_curve sw) x == l_rate r30).
Proof.
  destruct (load_swaps_cases currency)
    as (curve & rows & Hin & _ & _ & Hr & Hl).
  exists rows. revert Hr.
  generalize (py_upper (default ""%string currency)). intros ccy Hr.
  assert (Hfacts : exists sw r1 r30 c1 cs c30,
            curve_of rows = Some sw /\
            head rows = Some r1 /\ last rows = Some r30 /\
            clean_curve sw = c1 :: cs ++ [c30] /\
            c_years c1 = 1 /\ c_years c30 = 30 /\
            c_rate c1 == l_rate r1 /\ c_rate c30 == l_rate r30).
  { clear Hl. simpl in Hin.
    repeat (destruct Hin as [E|Hin];
      [subst curve; run Hr;
       match goal with
       | |- exists sw r1 r30 c1 cs c30, curve_of ?R = Some sw /\ _ =>
           let va := eval vm_compute in (curve_of R) in
           match va with
           | Some ?q =>
               let v := eval vm_compute in (clean_curve q) in
               match v with
               | [?c1; ?c2; ?c3; ?c4; ?c5; ?c6; ?c7; ?c8; ?c9] =>
                   exists q; eexists _, _, c1, [c2; c3; c4; c5; c6; c7; c8], c9
               end
           end
       end;
       do 7 (split; [vm_compute; reflexivity|]); vm_compute; reflexivity|]).
    destruct Hin. }
  destruct Hfacts as (sw & r1 & r30 & c1 & cs & c30 & Ea & H1 & H30 & Ec
                      & Y1 & Y30 & R1 & R30).
  exists sw, r1, r30. split; [exact Hl|]. split; [exact Ea|].
  split; [exact H1|]. split; [exact H30|].
  pose proof (clean_curve_sorted sw) as Hs.
  split; [|split].
  - apply asw_spread_rows. rewrite Ec. simpl. rewrite length_app. simpl. lia.
  - intros x Hx. rewrite <- R1.
    rewrite (swap_interp_left _ c1 (cs ++ [c30]) x Hs Ec); [reflexivity|].
    rewrite Y1. exact Hx.
  - intros x Hx. rewrite <- R30.
    rewrite (swap_interp_right _ (c1 :: cs) c30 x Hs); [reflexivity| |].
    + rewrite Ec. reflexivity.
    + rewrite Y30. exact Hx.
Qed.


End LoaderFacts.
